(** * stock-analysis: indicator engine, classifier and position sizer of app.py

    The dashboard of [app.py] downloads two years of daily bars per ticker,
    derives SMA_200, High_52W, RSI(14) and ATR(14) with pandas, labels the
    trend and the room below the 52-week high, and sizes a position from the
    ATR stop distance.

    Numbers.  The program computes in IEEE binary64.  [Float] keeps the
    special values of that format ([inf], [-inf], [nan]) and their
    arithmetic, because the RSI formula relies on them, and takes the finite
    values as exact rationals.  Zero is unsigned; the only divisions by zero
    of the program either produce an infinity whose sign does not reach the
    result ([100 / (1 + rs)]) or feed [int()], which raises on both
    infinities.  [B64] adds the rounding of binary64 to every operation of
    the classifier and of the sizer, whose integer results depend on it,
    and [Raw] the downloaded table with its missing cells; the statements
    on what a share count costs and risks, and on what the page shows for a
    table, are made there. *)

From Stdlib Require Import String.
From Stdlib Require Import QArith Qround Qabs Qminmax Qpower ZArith List Bool Lia
  Lqa.
Import ListNotations.

Set Implicit Arguments.

Open Scope Q_scope.

(** ** Floating-point values *)

Module Float.

Inductive float : Type :=
| Fin (q : Q)
| PInf
| NInf
| NaN.

Definition is_finite (x : float) : bool :=
  match x with Fin _ => true | _ => false end.

Definition is_nan (x : float) : bool :=
  match x with NaN => true | _ => false end.

(** Equality of values, up to the representation of the rational. *)
Definition feq (x y : float) : Prop :=
  match x, y with
  | Fin a, Fin b => a == b
  | PInf, PInf | NInf, NInf | NaN, NaN => True
  | _, _ => False
  end.

Definition fneg (x : float) : float :=
  match x with
  | Fin a => Fin (- a)
  | PInf => NInf
  | NInf => PInf
  | NaN => NaN
  end.

Definition fabs (x : float) : float :=
  match x with
  | Fin a => Fin (Qabs a)
  | PInf | NInf => PInf
  | NaN => NaN
  end.

Definition fadd (x y : float) : float :=
  match x, y with
  | NaN, _ | _, NaN => NaN
  | Fin a, Fin b => Fin (a + b)
  | PInf, NInf | NInf, PInf => NaN
  | PInf, _ | _, PInf => PInf
  | NInf, _ | _, NInf => NInf
  end.

Definition fsub (x y : float) : float := fadd x (fneg y).

(** An infinity times [a]: the sign of [a] decides, and [inf * 0] is [nan]. *)
Definition scale_inf (positive : bool) (a : Q) : float :=
  match 0 ?= a with
  | Lt => if positive then PInf else NInf
  | Gt => if positive then NInf else PInf
  | Eq => NaN
  end.

Definition fmul (x y : float) : float :=
  match x, y with
  | NaN, _ | _, NaN => NaN
  | Fin a, Fin b => Fin (a * b)
  | Fin a, PInf | PInf, Fin a => scale_inf true a
  | Fin a, NInf | NInf, Fin a => scale_inf false a
  | PInf, PInf | NInf, NInf => PInf
  | PInf, NInf | NInf, PInf => NInf
  end.

(** numpy division: a zero divisor gives an infinity (or [nan] for [0/0])
    and no exception. *)
Definition fdiv (x y : float) : float :=
  match x, y with
  | NaN, _ | _, NaN => NaN
  | Fin a, Fin b =>
      if Qeq_bool b 0 then scale_inf true a else Fin (a / b)
  | Fin _, PInf | Fin _, NInf => Fin 0
  | PInf, Fin b => match 0 ?= b with Gt => NInf | _ => PInf end
  | NInf, Fin b => match 0 ?= b with Gt => PInf | _ => NInf end
  | _, _ => NaN
  end.

(** Comparisons; every comparison with [nan] is [False]. *)
Definition flt (x y : float) : bool :=
  match x, y with
  | NaN, _ | _, NaN => false
  | Fin a, Fin b => match a ?= b with Lt => true | _ => false end
  | Fin _, PInf | NInf, Fin _ | NInf, PInf => true
  | Fin _, NInf | PInf, _ | NInf, NInf => false
  end.

Definition fle (x y : float) : bool :=
  match x, y with
  | NaN, _ | _, NaN => false
  | Fin a, Fin b => match a ?= b with Gt => false | _ => true end
  | Fin _, PInf | NInf, _ | PInf, PInf => true
  | Fin _, NInf | PInf, Fin _ | PInf, NInf => false
  end.

Definition fgt (x y : float) : bool := flt y x.
Definition fge (x y : float) : bool := fle y x.

(** Python's [int(x)]: truncation toward zero. *)
Definition Qtrunc (q : Q) : Z := Z.quot (Qnum q) (Z.pos (Qden q)).

(** [int()] of a float raises [ValueError] on [nan] and [OverflowError] on
    an infinity; [None] stands for the raised exception. *)
Definition int (x : float) : option Z :=
  match x with
  | Fin q => Some (Qtrunc q)
  | _ => None
  end.

End Float.
Import Float.

Coercion Fin : Q >-> float.

(** ** The pandas operations used by [calculate_indicators]

    A column ([pd.Series]) is the list of its values in row order; all the
    columns of one frame share the index, so elementwise operations pair
    the values by position. *)

Module Pandas.

Definition series := list float.

(** [a - b], [a / b] on two columns of the same frame. *)
Fixpoint zip_with (f : float -> float -> float) (a b : series) : series :=
  match a, b with
  | x :: a', y :: b' => f x y :: zip_with f a' b'
  | _, _ => []
  end.

(** [s.shift()]: every value moves one row down, row 0 becomes [nan]. *)
Definition shift (s : series) : series :=
  match s with
  | [] => []
  | _ :: _ => NaN :: removelast s
  end.

(** [s.diff()] is [s - s.shift()]. *)
Definition diff (s : series) : series := zip_with fsub s (shift s).

(** [s.where(cond, other)]: keep the value where [cond] holds, else
    [other]; a [nan] row fails every comparison and is replaced. *)
Definition where_ (cond : float -> bool) (other : float) (s : series) : series :=
  map (fun x => if cond x then x else other) s.

(** Rows [i-w+1 .. i] of the column, fewer at the start of the column. *)
Definition window (w i : nat) (s : series) : series :=
  skipn (i + 1 - w) (firstn (i + 1) s).

(** The valid observations of a window: [nan] is skipped (and pandas turns
    infinities into [nan] before a rolling aggregation). *)
Fixpoint observations (xs : series) : list Q :=
  match xs with
  | [] => []
  | Fin q :: r => q :: observations r
  | _ :: r => observations r
  end.

(** [s.rolling(window=w).agg()]: [min_periods] defaults to [w], so a row
    has a value only when its window holds [w] valid observations.  pandas
    updates a running aggregate from row to row; on exact numbers that is
    the aggregate of the window. *)
Definition rolling (w : nat) (agg : list Q -> Q) (s : series) : series :=
  map (fun i =>
         let obs := observations (window w i s) in
         if (w <=? length obs)%nat then Fin (agg obs) else NaN)
      (seq 0 (length s)).

Definition total (xs : list Q) : Q := fold_right Qplus 0 xs.

Definition mean (xs : list Q) : Q :=
  total xs / inject_Z (Z.of_nat (length xs)).

Definition maximum (xs : list Q) : Q :=
  match xs with
  | [] => 0
  | x :: r => fold_right Qmax x r
  end.

(** Row-wise [max] of a frame ([DataFrame.max(axis=1)], [skipna=True]):
    [nan] cells are ignored, a row of [nan] only gives [nan]. *)
Definition nanmax (x y : float) : float :=
  match x, y with
  | NaN, _ => y
  | _, NaN => x
  | _, _ => if fle y x then x else y
  end.

Fixpoint row_max (a b c : series) : series :=
  match a, b, c with
  | x :: a', y :: b', z :: c' => nanmax (nanmax x y) z :: row_max a' b' c'
  | _, _, _ => []
  end.

(** [s.iloc[-1]] of a non-empty column. *)
Definition iloc_last (s : series) : float := last s NaN.

End Pandas.
Import Pandas.

(** ** Indicator engine: [calculate_indicators] *)

(** One daily bar of the downloaded frame; Volume is never read.  The
    prices of a bar are finite numbers; a row with a missing price is not
    modelled. *)
Record bar : Type := mkBar {
  Open : Q;
  High : Q;
  Low : Q;
  Close : Q
}.

Definition frame := list bar.

Definition column (field : bar -> Q) (df : frame) : series :=
  map (fun b => Fin (field b)) df.

(** The frame returned by [calculate_indicators]: the four added columns. *)
Record indicators : Type := mkIndicators {
  SMA_200 : series;
  High_52W : series;
  RSI : series;
  ATR : series
}.

Section Indicators.

Variable df : frame.

(** [delta = df['Close'].diff()] *)
Definition delta : series := diff (column Close df).

(** [gain = (delta.where(delta > 0, 0)).rolling(window=14).mean()] *)
Definition gain : series :=
  rolling 14 mean (where_ (fun d => fgt d (Fin 0)) (Fin 0) delta).

(** [loss = (-delta.where(delta < 0, 0)).rolling(window=14).mean()] *)
Definition loss : series :=
  rolling 14 mean (map fneg (where_ (fun d => flt d (Fin 0)) (Fin 0) delta)).

(** [rs = gain / loss] *)
Definition rs : series := zip_with fdiv gain loss.

(** [100 - (100 / (1 + rs))] *)
Definition rsi_of (r : float) : float :=
  fsub (Fin 100) (fdiv (Fin 100) (fadd (Fin 1) r)).

Definition high_low : series := zip_with fsub (column High df) (column Low df).

Definition high_close : series :=
  map fabs (zip_with fsub (column High df) (shift (column Close df))).

Definition low_close : series :=
  map fabs (zip_with fsub (column Low df) (shift (column Close df))).

(** [ranges.max(axis=1)], the true range of each bar. *)
Definition true_range : series := row_max high_low high_close low_close.

Definition calculate_indicators : indicators :=
  {| SMA_200 := rolling 200 mean (column Close df);
     High_52W := rolling 250 maximum (column High df);
     RSI := map rsi_of rs;
     ATR := rolling 14 mean true_range |}.

End Indicators.

(** ** Sidebar settings (the module-level globals of app.py) *)

Record settings : Type := mkSettings {
  INITIAL_CAPITAL_JPY : float;
  RISK_TOLERANCE_PCT : float;
  ATR_MULTIPLIER : float
}.

(** The defaults of the three widgets: 200000 yen, 5.0 / 100, 2.0. *)
Definition default_settings : settings :=
  {| INITIAL_CAPITAL_JPY := Fin 200000;
     RISK_TOLERANCE_PCT := Fin (5 # 100);
     ATR_MULTIPLIER := Fin 2 |}.

(** ** Trend and opportunity classifier *)

Inductive trend : Type := Bullish | Bearish.

Inductive opportunity : Type := AtHighs | RoomAvailable | NearResistance.

(** [is_bull = last['Close'] > last['SMA_200']] *)
Definition is_bull (close sma_200 : float) : bool := fgt close sma_200.

Definition trend_of (close sma_200 : float) : trend :=
  if is_bull close sma_200 then Bullish else Bearish.

(** [dist_to_high_pct = (high_52 - last['Close']) / last['Close'] * 100] *)
Definition dist_to_high_pct (close high_52 : float) : float :=
  fmul (fdiv (fsub high_52 close) close) (Fin 100).

(** The [if] / [elif] / [else] of lines 113-118. *)
Definition classify (close high_52 : float) : opportunity :=
  if fge close (fmul high_52 (Fin (99 # 100))) then AtHighs
  else if fge (dist_to_high_pct close high_52) (Fin 10) then RoomAvailable
  else NearResistance.

(** ** Position sizer (the [if is_bull:] block, lines 121-129) *)

Section Sizer.

Variable cfg : settings.
Variables close atr usd_jpy : float.

Definition stop_loss : float :=
  fsub close (fmul (ATR_MULTIPLIER cfg) atr).

Definition risk_per_share_jpy : float :=
  fmul (fsub close stop_loss) usd_jpy.

Definition allowable_risk : float :=
  fmul (INITIAL_CAPITAL_JPY cfg) (RISK_TOLERANCE_PCT cfg).

(** [int(allowable_risk / risk_per_share_jpy)] *)
Definition raw_shares : option Z := int (fdiv allowable_risk risk_per_share_jpy).

(** [max_buy = int(INITIAL_CAPITAL_JPY / (last['Close'] * usd_jpy))] *)
Definition max_buy : option Z :=
  int (fdiv (INITIAL_CAPITAL_JPY cfg) (fmul close usd_jpy)).

(** The risk exposure of a share count, [shares * risk_per_share_jpy].
    The program does not compute it; the guarantee on the risk taken is
    stated on it. *)
Definition exposure (shares : Z) : float :=
  fmul (Fin (inject_Z shares)) risk_per_share_jpy.

(** The share count; [None] when one of the two [int()] calls raises. *)
Definition position_shares : option Z :=
  if fgt risk_per_share_jpy (Fin 0) then
    match raw_shares with
    | None => None
    | Some shares =>
        match max_buy with
        | None => None
        | Some m => Some (Z.min shares m)
        end
    end
  else Some 0%Z.

End Sizer.

(** ** Orchestration: one run over the watchlist *)

(** What a ticker's column of the page shows, in rendering order. *)
Inductive widget : Type :=
| Data_shortage (ticker : String.string)
| Subheader (name ticker : String.string)
| Metric (close rsi_val : float)
| Trend_label (t : trend)
| At_highs
| Room_available (dist : float)
| Near_resistance (dist : float)
| Position (shares : Z) (stop : float)
| No_entry
| Ai_comment (text : String.string)
| Ai_rate_limited
| Ai_not_found
| Ai_error (err_msg : String.string)
| System_error.

(** [st.success] / [st.info] / [st.warning] of lines 113-118; the last
    two print the distance to the high. *)
Definition opportunity_widget (close high_52 : float) : widget :=
  match classify close high_52 with
  | AtHighs => At_highs
  | RoomAvailable => Room_available (dist_to_high_pct close high_52)
  | NearResistance => Near_resistance (dist_to_high_pct close high_52)
  end.

(** The commentary provider answers with a text or raises with a message. *)
Inductive reply : Type :=
| Text (s : String.string)
| Raised (err_msg : String.string).

Definition contains (needle hay : String.string) : bool :=
  match String.index 0 needle hay with Some _ => true | None => false end.

(** The [try] / [except] around [generate_content], lines 152-166. *)
Definition commentary (r : reply) : widget :=
  match r with
  | Text s => Ai_comment s
  | Raised err_msg =>
      if contains "429"%string err_msg
         || contains "RESOURCE_EXHAUSTED"%string err_msg
      then Ai_rate_limited
      else if contains "404"%string err_msg then Ai_not_found
      else Ai_error err_msg
  end.

(** [get_usd_jpy_rate]: the last close of the JPY=X history, 150.0 when the
    history is empty or the request raises ([None]). *)
Definition get_usd_jpy_rate (history : option series) : float :=
  match history with
  | None | Some [] => Fin 150
  | Some data => iloc_last data
  end.

Section Run.

Variable cfg : settings.
Variable usd_jpy : float.
(** [client]; the prompt is determined by the ticker's name and figures,
    so the provider is indexed by the name. *)
Variable client : option (String.string -> reply).
(** [yf.download]; [None] when the call raises. *)
Variable download : String.string -> option frame.

(** The body of the [if is_bull:] / [else:] of lines 120-137 followed by
    the commentary block; an exception of the sizer leaves the column with
    the widgets already drawn and the error message. *)
Definition position_block (name : String.string) (close atr sma_200 : float)
  : list widget :=
  if is_bull close sma_200 then
    match position_shares cfg close atr usd_jpy with
    | None => [System_error]
    | Some shares =>
        Position shares (stop_loss cfg close atr)
        :: match client with
           | Some ask => [commentary (ask name)]
           | None => []
           end
    end
  else [No_entry].

(** One iteration of the loop over [TARGETS]. *)
Definition analyse (ticker name : String.string) : list widget :=
  match download ticker with
  | None => [System_error]
  | Some df =>
      if (length df =? 0)%nat || (length df <? 250)%nat then
        [Data_shortage ticker]
      else
        let ind := calculate_indicators df in
        let close := iloc_last (column Close df) in
        let sma_200 := iloc_last (SMA_200 ind) in
        let rsi_val := iloc_last (RSI ind) in
        let high_52 := iloc_last (High_52W ind) in
        Subheader name ticker
        :: Metric close rsi_val
        :: Trend_label (trend_of close sma_200)
        :: opportunity_widget close high_52
        :: position_block name close (iloc_last (ATR ind)) sma_200
  end.

(** The run: every ticker of the watchlist gets its own column. *)
Definition run (targets : list (String.string * String.string))
  : list (String.string * list widget) :=
  map (fun t => (fst t, analyse (fst t) (snd t))) targets.

End Run.

(** [TARGETS] *)
Definition TARGETS : list (String.string * String.string) :=
  [ ("NVDA", "NVIDIA Corp"); ("TSLA", "Tesla Inc"); ("SPY", "S&P 500 ETF") ]%string.

(** ** Binary64 arithmetic of the classifier and the sizer

    The classifier and the sizer work on Python and numpy floats, and their
    outcomes are discrete: a rounding error of one unit in the last place
    can move a quotient across an integer before [int()] truncates it, and
    a quotient can overflow to [inf].  Each operation of binary64 is the
    exact operation of [Float] followed by rounding to the nearest
    representable number, ties to even. *)

Module B64.

(** [2 ^ z], for every integer [z]. *)
Definition pow2 (z : Z) : Q := 2 ^ z.

(** The binary exponent of a positive number: [2 ^ ilog2 q <= q]. *)
Definition ilog2 (q : Q) : Z :=
  let k := (Z.log2 (Qnum q) - Z.log2 (Z.pos (Qden q)))%Z in
  if Qle_bool (pow2 k) q then k else (k - 1)%Z.

(** The nearest integer, ties to even. *)
Definition rne (x : Q) : Z :=
  let f := Qfloor x in
  match Qcompare (x - inject_Z f) (1 # 2) with
  | Lt => f
  | Gt => (f + 1)%Z
  | Eq => if Z.even f then f else (f + 1)%Z
  end.

(** The exponent of the unit in the last place: 53 significant bits from
    [2 ^ -1022] on, the fixed grid of the subnormal numbers below. *)
Definition ulp_exp (q : Q) : Z :=
  if Qle_bool (pow2 (-1022)) q then (ilog2 q - 52)%Z else (-1074)%Z.

(** Rounding of a positive number; [inf] from [2 ^ 1024] on. *)
Definition round_pos (q : Q) : float :=
  let e := ulp_exp q in
  let r := inject_Z (rne (q * pow2 (- e))) * pow2 e in
  if Qle_bool (pow2 1024) r then PInf else Fin (Qred r).

Definition round (q : Q) : float :=
  match Qcompare 0 q with
  | Eq => Fin 0
  | Lt => round_pos q
  | Gt => fneg (round_pos (- q))
  end.

Definition rnd (x : float) : float :=
  match x with Fin q => round q | _ => x end.

Definition add (x y : float) : float := rnd (fadd x y).
Definition sub (x y : float) : float := rnd (fsub x y).
Definition mul (x y : float) : float := rnd (fmul x y).
Definition div (x y : float) : float := rnd (fdiv x y).

(** The unit roundoff [2 ^ -53]. *)
Definition u : Q := pow2 (-53).

(** The defaults of the three widgets; [5.0 / 100] is a float division.
    The capital widget returns a Python [int] (its [value] and [step] are
    integers) within the range Streamlit gives integers, [2 ^ 53 - 1] in
    magnitude, which converts to a float without rounding. *)
Definition default_settings : settings :=
  {| INITIAL_CAPITAL_JPY := Fin 200000;
     RISK_TOLERANCE_PCT := div (Fin 5) (Fin 100);
     ATR_MULTIPLIER := Fin 2 |}.

(** [dist_to_high_pct = (high_52 - last['Close']) / last['Close'] * 100] *)
Definition dist_to_high_pct (close high_52 : float) : float :=
  mul (div (sub high_52 close) close) (Fin 100).

(** The [if] / [elif] / [else] of lines 113-118; the literal [0.99] is the
    float nearest to 99/100. *)
Definition classify (close high_52 : float) : opportunity :=
  if fge close (mul high_52 (round (99 # 100))) then AtHighs
  else if fge (dist_to_high_pct close high_52) (Fin 10) then RoomAvailable
  else NearResistance.

Section Sizer.

Variable cfg : settings.
Variables close atr usd_jpy : float.

Definition stop_loss : float :=
  sub close (mul (ATR_MULTIPLIER cfg) atr).

Definition risk_per_share_jpy : float :=
  mul (sub close stop_loss) usd_jpy.

Definition allowable_risk : float :=
  mul (INITIAL_CAPITAL_JPY cfg) (RISK_TOLERANCE_PCT cfg).

(** [int(allowable_risk / risk_per_share_jpy)] *)
Definition raw_shares : option Z := int (div allowable_risk risk_per_share_jpy).

(** [max_buy = int(INITIAL_CAPITAL_JPY / (last['Close'] * usd_jpy))] *)
Definition max_buy : option Z :=
  int (div (INITIAL_CAPITAL_JPY cfg) (mul close usd_jpy)).

(** The risk exposure of a share count: the exact product of the count and
    the risk per share the program computed. *)
Definition exposure (shares : Z) : float :=
  fmul (Fin (inject_Z shares)) risk_per_share_jpy.

(** The share count; [None] when one of the two [int()] calls raises. *)
Definition position_shares : option Z :=
  if fgt risk_per_share_jpy (Fin 0) then
    match raw_shares with
    | None => None
    | Some shares =>
        match max_buy with
        | None => None
        | Some m => Some (Z.min shares m)
        end
    end
  else Some 0%Z.

End Sizer.

End B64.

(** ** The downloaded table, missing cells included

    [yf.download] returns a frame whose cells may be [nan] (a day without a
    quote); the length guard of line 93 counts rows and drops none.  The
    rolling aggregates are taken on exact numbers, as in [Pandas]: the
    rounding and the overflow of the running sums of pandas are not
    modelled, and the statements on a table bound its prices accordingly.
    The classifier and the sizer of the page are the binary64 ones. *)

Module Raw.

Record row : Type := mkRow {
  Open : float;
  High : float;
  Low : float;
  Close : float
}.

Definition table := list row.

Definition column (field : row -> float) (df : table) : series := map field df.

(** A price that is present, and of a magnitude from which no running
    sum of a window overflows. *)
Definition quoted (x : float) : bool :=
  match x with Fin q => Qle_bool (Qabs q) (B64.pow2 1000) | _ => false end.

(** A row whose three prices read by [calculate_indicators] are quoted. *)
Definition priced (r : row) : bool :=
  quoted (Close r) && quoted (High r) && quoted (Low r).

Section Indicators.

Variable df : table.

Definition delta : series := diff (column Close df).

Definition gain : series :=
  rolling 14 mean (where_ (fun d => fgt d (Fin 0)) (Fin 0) delta).

Definition loss : series :=
  rolling 14 mean (map fneg (where_ (fun d => flt d (Fin 0)) (Fin 0) delta)).

Definition rs : series := zip_with fdiv gain loss.

Definition high_low : series := zip_with fsub (column High df) (column Low df).

Definition high_close : series :=
  map fabs (zip_with fsub (column High df) (shift (column Close df))).

Definition low_close : series :=
  map fabs (zip_with fsub (column Low df) (shift (column Close df))).

Definition true_range : series := row_max high_low high_close low_close.

Definition calculate_indicators : indicators :=
  {| SMA_200 := rolling 200 mean (column Close df);
     High_52W := rolling 250 maximum (column High df);
     RSI := map rsi_of rs;
     ATR := rolling 14 mean true_range |}.

End Indicators.

Definition opportunity_widget (close high_52 : float) : widget :=
  match B64.classify close high_52 with
  | AtHighs => At_highs
  | RoomAvailable => Room_available (B64.dist_to_high_pct close high_52)
  | NearResistance => Near_resistance (B64.dist_to_high_pct close high_52)
  end.

Section Run.

Variable cfg : settings.
Variable usd_jpy : float.
Variable client : option (String.string -> reply).
Variable download : String.string -> option table.

(** Lines 120-166: an exception of [int()] leaves the column with the
    widgets already drawn and the error message of line 169. *)
Definition position_block (name : String.string) (close atr sma_200 : float)
  : list widget :=
  if is_bull close sma_200 then
    match B64.position_shares cfg close atr usd_jpy with
    | None => [System_error]
    | Some shares =>
        Position shares (B64.stop_loss cfg close atr)
        :: match client with
           | Some ask => [commentary (ask name)]
           | None => []
           end
    end
  else [No_entry].

(** One iteration of the loop over [TARGETS]. *)
Definition analyse (ticker name : String.string) : list widget :=
  match download ticker with
  | None => [System_error]
  | Some df =>
      if (length df =? 0)%nat || (length df <? 250)%nat then
        [Data_shortage ticker]
      else
        let ind := calculate_indicators df in
        let close := iloc_last (column Close df) in
        let sma_200 := iloc_last (SMA_200 ind) in
        let rsi_val := iloc_last (RSI ind) in
        let high_52 := iloc_last (High_52W ind) in
        Subheader name ticker
        :: Metric close rsi_val
        :: Trend_label (trend_of close sma_200)
        :: opportunity_widget close high_52
        :: position_block name close (iloc_last (ATR ind)) sma_200
  end.

End Run.

End Raw.

(** ** Row predicates and sample frames used in the statements *)

(** A value that is not an infinity: finite, or [nan]. *)
Definition no_inf (x : float) : Prop :=
  match x with PInf | NInf => False | _ => True end.

(** A finite value whose rational satisfies [P]. *)
Definition fin_sat (P : Q -> Prop) (x : float) : Prop :=
  match x with Fin q => P q | _ => False end.

(** [nan], or a finite value whose rational satisfies [P]. *)
Definition nan_or (P : Q -> Prop) (x : float) : Prop :=
  match x with Fin q => P q | NaN => True | _ => False end.

(** The all-constant series: [n] bars with open = high = low = close = c. *)
Definition flat_frame (n : nat) (c : Q) : frame := repeat (mkBar c c c c) n.

(** A series that rises and falls: closes 100, 101, 102, 100, 101, ...,
    each bar reaching one above and one below its close. *)
Definition wave_frame (n : nat) : frame :=
  map (fun i => let c := inject_Z (Z.of_nat (100 + i mod 3)) in
                mkBar c (c + 1) (c - 1) c)
      (seq 0 n).

(** A series that ends on a close of exactly 0 after 249 bars at -1: the
    input on which the division by the price in yen is a division by 0. *)
Definition sunk_frame : frame :=
  repeat (mkBar (-1) (-1) (-1) (-1)) 249 ++ [mkBar (-1) 0 (-1) 0].

(** A frame of finite prices as a downloaded table, and back: the value of
    a finite cell, 0 for the others. *)
Definition row_of_bar (b : bar) : Raw.row :=
  Raw.mkRow (Fin (Open b)) (Fin (High b)) (Fin (Low b)) (Fin (Close b)).

Definition table_of (df : frame) : Raw.table := map row_of_bar df.

Definition cell_value (x : float) : Q :=
  match x with Fin q => q | _ => 0 end.

Definition bar_of_row (r : Raw.row) : bar :=
  mkBar (cell_value (Raw.Open r)) (cell_value (Raw.High r))
        (cell_value (Raw.Low r)) (cell_value (Raw.Close r)).

(** The table of [sunk_frame]. *)
Definition sunk_table : Raw.table := table_of sunk_frame.

(** 250 rows of [wave_frame] with one day without a quote in the middle. *)
Definition gap_table : Raw.table :=
  table_of (wave_frame 100) ++ [Raw.mkRow NaN NaN NaN NaN]
  ++ table_of (wave_frame 149).

(** * Properties *)

(** ** Truncation and comparisons *)

Lemma Qtrunc_nonneg_floor (q : Q) : 0 <= q -> Qtrunc q = Qfloor q.
Proof.
  destruct q as [n d]; unfold Qle, Qtrunc, Qfloor; simpl; intros H.
  apply Z.quot_div_nonneg; lia.
Qed.

Lemma Qtrunc_nonpos_ceiling (q : Q) : q <= 0 -> Qtrunc q = Qceiling q.
Proof.
  destruct q as [n d]; unfold Qle, Qtrunc, Qceiling, Qfloor; simpl; intros H.
  rewrite <- (Z.opp_involutive n) at 1.
  rewrite Z.quot_opp_l by lia.
  f_equal. apply Z.quot_div_nonneg; lia.
Qed.

(** Truncation never moves away from zero. *)
Lemma Qtrunc_le (q : Q) : 0 <= q -> inject_Z (Qtrunc q) <= q.
Proof.
  intros H. rewrite (Qtrunc_nonneg_floor H). apply Qfloor_le.
Qed.

Lemma Qtrunc_ge (q : Q) : q <= 0 -> q <= inject_Z (Qtrunc q).
Proof.
  intros H. rewrite (Qtrunc_nonpos_ceiling H). apply Qle_ceiling.
Qed.

Lemma Qtrunc_sign_nonneg (q : Q) : 0 <= q -> (0 <= Qtrunc q)%Z.
Proof.
  intros H. rewrite (Qtrunc_nonneg_floor H).
  change 0%Z with (Qfloor 0). now apply Qfloor_resp_le.
Qed.

Lemma Qtrunc_sign_nonpos (q : Q) : q <= 0 -> (Qtrunc q <= 0)%Z.
Proof.
  intros H. rewrite (Qtrunc_nonpos_ceiling H).
  change 0%Z with (Qceiling 0). now apply Qceiling_resp_le.
Qed.

Lemma Qeq_bool_false_of_lt (a : Q) : 0 < a -> Qeq_bool a 0 = false.
Proof.
  intros H. destruct (Qeq_bool a 0) eqn:E; [|reflexivity].
  apply Qeq_bool_eq in E. rewrite E in H. discriminate H.
Qed.

Lemma fgt_Fin (a b : Q) : fgt (Fin a) (Fin b) = true <-> b < a.
Proof.
  unfold fgt, flt. rewrite Qlt_alt.
  destruct (b ?= a); split; congruence.
Qed.

Lemma fgt_Fin_false (a b : Q) : fgt (Fin a) (Fin b) = false <-> a <= b.
Proof.
  unfold fgt, flt. rewrite Qle_alt, <- (Qcompare_antisym b a).
  destruct (b ?= a); simpl; split; congruence.
Qed.

Lemma fge_Fin (a b : Q) : fge (Fin a) (Fin b) = true <-> b <= a.
Proof.
  unfold fge, fle. rewrite Qle_alt.
  destruct (b ?= a); split; congruence.
Qed.

Lemma fgt_finite_l (x : float) (b : Q) :
  fgt x (Fin b) = true -> x = PInf \/ exists a, x = Fin a /\ b < a.
Proof.
  destruct x as [a| | |]; simpl; try discriminate; auto.
  intros H. right. exists a. split; [reflexivity|]. now apply fgt_Fin.
Qed.

(** ** Binary64 rounding *)

Lemma Fin_inj (a b : Q) : Fin a = Fin b -> a = b.
Proof. congruence. Qed.

Lemma pow2_pos z : 0 < B64.pow2 z.
Proof. apply Qpower_0_lt. reflexivity. Qed.

Lemma pow2_plus a b : B64.pow2 (a + b) == B64.pow2 a * B64.pow2 b.
Proof. apply Qpower_plus. discriminate. Qed.

Lemma pow2_cancel e : B64.pow2 (- e) * B64.pow2 e == 1.
Proof. rewrite <- pow2_plus. now replace (- e + e)%Z with 0%Z by lia. Qed.

Lemma pow2_inject (n : Z) : (0 <= n)%Z -> inject_Z (2 ^ n) == B64.pow2 n.
Proof. intros Hn. now apply Zpower_Qpower. Qed.

Lemma u_bounds : 0 < B64.u /\ B64.u < 1.
Proof. split; reflexivity. Qed.

(** The binary exponent of a positive number is not above it. *)
Lemma ilog2_le (q : Q) : 0 < q -> B64.pow2 (B64.ilog2 q) <= q.
Proof.
  intros Hq. unfold B64.ilog2.
  destruct (Qle_bool _ q) eqn:E; [now apply Qle_bool_iff|].
  destruct q as [n d]. cbn [Qnum Qden].
  assert (Hn : (0 < n)%Z).
  { unfold Qlt in Hq. cbn in Hq. lia. }
  destruct (Z.log2_spec n Hn) as [Ha _].
  destruct (Z.log2_spec (Z.pos d) (Pos2Z.is_pos d)) as [_ Hb].
  pose proof (Z.log2_nonneg n) as Ha0.
  pose proof (Z.log2_nonneg (Z.pos d)) as Hb0.
  set (a := Z.log2 n) in *. set (b := Z.log2 (Z.pos d)) in *.
  rewrite (Qmake_Qdiv n d).
  apply Qle_shift_div_l; [reflexivity|].
  apply Qle_trans with (B64.pow2 (a - b - 1) * B64.pow2 (b + 1)).
  - apply Qmult_le_l; [apply pow2_pos|].
    rewrite <- pow2_inject by lia. rewrite <- Zle_Qle.
    replace (b + 1)%Z with (Z.succ b) by lia. lia.
  - rewrite <- pow2_plus. replace (a - b - 1 + (b + 1))%Z with a by lia.
    rewrite <- pow2_inject by lia. now rewrite <- Zle_Qle.
Qed.

(** The nearest integer is within one half. *)
Lemma rne_near (x : Q) :
  x - (1 # 2) <= inject_Z (B64.rne x) /\ inject_Z (B64.rne x) <= x + (1 # 2).
Proof.
  pose proof (Qfloor_le x) as Hl. pose proof (Qlt_floor x) as Hu.
  rewrite inject_Z_plus in Hu. change (inject_Z 1) with 1 in Hu.
  unfold B64.rne.
  destruct (Qcompare (x - inject_Z (Qfloor x)) (1 # 2)) eqn:C.
  - apply Qeq_alt in C.
    destruct (Z.even (Qfloor x));
      [|rewrite inject_Z_plus; change (inject_Z 1) with 1]; split; lra.
  - apply Qlt_alt in C. split; lra.
  - apply Qgt_alt in C. rewrite inject_Z_plus. change (inject_Z 1) with 1.
    split; lra.
Qed.

Lemma rne_nonneg (x : Q) : 0 <= x -> (0 <= B64.rne x)%Z.
Proof.
  intros Hx.
  assert (H0 : (0 <= Qfloor x)%Z).
  { change 0%Z with (Qfloor 0). now apply Qfloor_resp_le. }
  unfold B64.rne. destruct (Qcompare _ _); [destruct (Z.even _)| |]; lia.
Qed.

(** The nearest multiple of the unit in the last place is within half a
    unit of the number. *)
Lemma nearest_multiple_near (q : Q) :
  let e := B64.ulp_exp q in
  let m := inject_Z (B64.rne (q * B64.pow2 (- e))) * B64.pow2 e in
  q - (1 # 2) * B64.pow2 e <= m /\ m <= q + (1 # 2) * B64.pow2 e.
Proof.
  intros e m. unfold m.
  destruct (rne_near (q * B64.pow2 (- e))) as [Hl Hu].
  pose proof (pow2_pos e) as He.
  assert (Hq : q == q * B64.pow2 (- e) * B64.pow2 e).
  { rewrite <- Qmult_assoc, pow2_cancel. ring. }
  split.
  - apply Qle_trans with ((q * B64.pow2 (- e) - (1 # 2)) * B64.pow2 e).
    + rewrite Hq at 1. ring_simplify. apply Qle_refl.
    + apply Qmult_le_compat_r; [exact Hl | now apply Qlt_le_weak].
  - apply Qle_trans with ((q * B64.pow2 (- e) + (1 # 2)) * B64.pow2 e).
    + apply Qmult_le_compat_r; [exact Hu | now apply Qlt_le_weak].
    + rewrite Hq at 2. ring_simplify. apply Qle_refl.
Qed.

(** The value of a finite [round_pos]. *)
Lemma round_pos_value (q r : Q) :
  B64.round_pos q = Fin r ->
  r == inject_Z (B64.rne (q * B64.pow2 (- B64.ulp_exp q)))
       * B64.pow2 (B64.ulp_exp q)
  /\ r < B64.pow2 1024.
Proof.
  unfold B64.round_pos.
  set (m := inject_Z _ * B64.pow2 _).
  destruct (Qle_bool (B64.pow2 1024) m) eqn:E; [discriminate|].
  intros H. apply Fin_inj in H. subst r. split; [apply Qred_correct|].
  rewrite Qred_correct. apply Qnot_le_lt. intros H.
  apply Qle_bool_iff in H. congruence.
Qed.

Lemma round_pos_near (q r : Q) :
  B64.round_pos q = Fin r ->
  q - (1 # 2) * B64.pow2 (B64.ulp_exp q) <= r
  /\ r <= q + (1 # 2) * B64.pow2 (B64.ulp_exp q).
Proof.
  intros H. destruct (round_pos_value _ H) as [-> _].
  apply nearest_multiple_near.
Qed.

Lemma round_pos_nonneg (q r : Q) : 0 <= q -> B64.round_pos q = Fin r -> 0 <= r.
Proof.
  intros Hq H. destruct (round_pos_value _ H) as [-> _].
  apply Qmult_le_0_compat; [|apply Qlt_le_weak, pow2_pos].
  change 0 with (inject_Z 0). rewrite <- Zle_Qle. apply rne_nonneg.
  apply Qmult_le_0_compat; [exact Hq | apply Qlt_le_weak, pow2_pos].
Qed.

Lemma round_pos_cases (q : Q) :
  B64.round_pos q = PInf \/ exists r, B64.round_pos q = Fin r.
Proof.
  unfold B64.round_pos. destruct (Qle_bool _ _); [now left | right; eauto].
Qed.

(** Half a unit in the last place of a normal number is at most [u] times
    the number. *)
Lemma half_ulp_normal (q : Q) :
  B64.pow2 (-1022) <= q -> (1 # 2) * B64.pow2 (B64.ulp_exp q) <= q * B64.u.
Proof.
  intros Hn. unfold B64.ulp_exp.
  rewrite (proj2 (Qle_bool_iff _ _) Hn).
  assert (Hq : 0 < q)
    by (apply Qlt_le_trans with (B64.pow2 (-1022)); [apply pow2_pos | exact Hn]).
  replace (B64.ilog2 q - 52)%Z with (B64.ilog2 q + (-52))%Z by lia.
  rewrite pow2_plus.
  apply Qle_trans with (B64.pow2 (B64.ilog2 q) * B64.u).
  - unfold B64.u. change (B64.pow2 (-53)) with ((1 # 2) * B64.pow2 (-52)).
    ring_simplify. apply Qle_refl.
  - apply Qmult_le_compat_r; [now apply ilog2_le | apply Qlt_le_weak, pow2_pos].
Qed.

Lemma half_ulp_subnormal (q : Q) :
  q < B64.pow2 (-1022) ->
  (1 # 2) * B64.pow2 (B64.ulp_exp q) == B64.pow2 (-1075).
Proof.
  intros Hs. unfold B64.ulp_exp.
  destruct (Qle_bool _ q) eqn:E; [|reflexivity].
  apply Qle_bool_iff in E. exfalso. apply (Qlt_irrefl q).
  now apply Qlt_le_trans with (B64.pow2 (-1022)).
Qed.

Lemma round_positive (q : Q) : 0 < q -> B64.round q = B64.round_pos q.
Proof. intros H. unfold B64.round. now rewrite (proj1 (Qlt_alt 0 q) H). Qed.

Lemma round_zero (q : Q) : q == 0 -> B64.round q = Fin 0.
Proof.
  intros H. unfold B64.round.
  assert (E : 0 == q) by now symmetry.
  now rewrite (proj1 (Qeq_alt 0 q) E).
Qed.

Lemma round_negative (q : Q) :
  q < 0 -> B64.round q = fneg (B64.round_pos (- q)).
Proof. intros H. unfold B64.round. now rewrite (proj1 (Qgt_alt 0 q) H). Qed.

(** [int()] of a rounded positive number is at most the number plus its
    relative rounding error: below the normal range the rounded value is
    under 1 and truncates to 0. *)
Lemma round_pos_trunc (q r : Q) :
  0 < q -> B64.round_pos q = Fin r -> inject_Z (Qtrunc r) <= q * (1 + B64.u).
Proof.
  intros Hq H.
  pose proof (round_pos_nonneg (Qlt_le_weak _ _ Hq) H) as Hr.
  destruct (round_pos_near _ H) as [_ Hu].
  destruct u_bounds as [Hu0 _].
  destruct (Qlt_le_dec q (B64.pow2 (-1022))) as [Hs | Hn].
  - rewrite (half_ulp_subnormal Hs) in Hu.
    assert (H1 : r < 1).
    { apply Qle_lt_trans with (q + B64.pow2 (-1075)); [exact Hu|].
      apply Qlt_trans with (B64.pow2 (-1022) + B64.pow2 (-1075)); [|reflexivity].
      lra. }
    assert (Ht : (Qtrunc r <= 0)%Z).
    { pose proof (Qtrunc_le Hr) as Hle.
      assert (Hlt : inject_Z (Qtrunc r) < inject_Z 1)
        by (change (inject_Z 1) with 1; lra).
      rewrite <- Zlt_Qlt in Hlt. lia. }
    apply Qle_trans with 0.
    + change 0 with (inject_Z 0). now rewrite <- Zle_Qle.
    + apply Qmult_le_0_compat; lra.
  - pose proof (half_ulp_normal Hn) as Hh.
    pose proof (Qtrunc_le Hr) as Hle. lra.
Qed.

(** Rounding a normal number loses at most the fraction [u] of it. *)
Lemma round_pos_lower (q r : Q) :
  B64.pow2 (-1022) <= q -> B64.round_pos q = Fin r -> q * (1 - B64.u) <= r.
Proof.
  intros Hn H.
  destruct (round_pos_near _ H) as [Hl _].
  pose proof (half_ulp_normal Hn) as Hh. lra.
Qed.

(** ** Position sizer *)

(** With a positive price in yen the second [int()] never raises. *)
Lemma max_buy_priced (capital close fx : Q) (risk mult : float) :
  0 < close * fx ->
  max_buy (mkSettings (Fin capital) risk mult) (Fin close) (Fin fx)
  = Some (Qtrunc (capital / (close * fx))).
Proof.
  intros Hp. unfold max_buy; simpl.
  now rewrite (Qeq_bool_false_of_lt Hp).
Qed.

(** The share count is either 0 (no positive risk per share) or the
    smaller of the two truncated quotients. *)
Lemma position_shares_cases (cfg : settings) (close atr fx : float) (shares : Z) :
  position_shares cfg close atr fx = Some shares ->
  (fgt (risk_per_share_jpy cfg close atr fx) (Fin 0) = false /\ shares = 0%Z)
  \/ (fgt (risk_per_share_jpy cfg close atr fx) (Fin 0) = true
      /\ exists r m, raw_shares cfg close atr fx = Some r
                     /\ max_buy cfg close fx = Some m
                     /\ shares = Z.min r m).
Proof.
  unfold position_shares.
  destruct (fgt _ _) eqn:E.
  - destruct (raw_shares _ _ _ _) as [r|]; [|discriminate].
    destruct (max_buy _ _ _) as [m|]; [|discriminate].
    intros [= <-]. right. split; [reflexivity|]. now exists r, m.
  - intros [= <-]. now left.
Qed.

Lemma Qle_div_mult (x c p : Q) : 0 < p -> x <= c / p -> x * p <= c.
Proof.
  intros Hp H.
  apply Qle_trans with (c / p * p).
  - apply Qmult_le_compat_r; [exact H | now apply Qlt_le_weak].
  - rewrite Qmult_comm, Qmult_div_r; [apply Qle_refl|].
    intros E. rewrite E in Hp. discriminate Hp.
Qed.

Lemma Qdiv_nonneg (a r : Q) : 0 <= a -> 0 < r -> 0 <= a / r.
Proof.
  intros Ha Hr. unfold Qdiv.
  apply Qmult_le_0_compat; [exact Ha|].
  now apply Qlt_le_weak, Qinv_lt_0_compat.
Qed.

(** On finite inputs with a non-zero price in yen the sizer returns. *)
Lemma position_shares_defined (capital risk mult close atr fx : Q) :
  ~ close * fx == 0 ->
  exists shares,
    position_shares (mkSettings (Fin capital) (Fin risk) (Fin mult))
                    (Fin close) (Fin atr) (Fin fx) = Some shares.
Proof.
  intros Hp. unfold position_shares.
  destruct (fgt _ _) eqn:E; [|now eexists].
  unfold risk_per_share_jpy, stop_loss in E; simpl in E.
  apply fgt_Fin in E.
  unfold raw_shares, max_buy, risk_per_share_jpy, stop_loss, allowable_risk; simpl.
  rewrite (Qeq_bool_false_of_lt E).
  destruct (Qeq_bool (close * fx) 0) eqn:F.
  - apply Qeq_bool_eq in F. contradiction.
  - simpl. now eexists.
Qed.

(** The binary64 share count is either 0 (no positive risk per share) or
    the smaller of the two truncated quotients. *)
Lemma position_shares_b64_cases
      (cfg : settings) (close atr fx : float) (shares : Z) :
  B64.position_shares cfg close atr fx = Some shares ->
  (fgt (B64.risk_per_share_jpy cfg close atr fx) (Fin 0) = false
   /\ shares = 0%Z)
  \/ (fgt (B64.risk_per_share_jpy cfg close atr fx) (Fin 0) = true
      /\ exists r m, B64.raw_shares cfg close atr fx = Some r
                     /\ B64.max_buy cfg close fx = Some m
                     /\ shares = Z.min r m).
Proof.
  unfold B64.position_shares.
  destruct (fgt _ _) eqn:E.
  - destruct (B64.raw_shares _ _ _ _) as [r|]; [|discriminate].
    destruct (B64.max_buy _ _ _) as [m|]; [|discriminate].
    intros [= <-]. right. split; [reflexivity|]. now exists r, m.
  - intros [= <-]. now left.
Qed.

(** The affordable count against the exact price in yen: the product
    [close * usd_jpy] is rounded once, and the quotient once more. *)
Lemma max_buy_bound (capital c fx : Q) (risk mult : float) (m : Z) :
  0 < capital -> 0 < c * fx -> B64.pow2 (-1022) <= c * fx ->
  B64.max_buy (mkSettings (Fin capital) risk mult) (Fin c) (Fin fx) = Some m ->
  inject_Z m * (c * fx) * (1 - B64.u) <= capital * (1 + B64.u).
Proof.
  intros Hc Hp Hn. unfold B64.max_buy, B64.mul, B64.div.
  cbn [INITIAL_CAPITAL_JPY fmul B64.rnd].
  rewrite (round_positive Hp).
  destruct u_bounds as [Hu0 Hu1].
  destruct (round_pos_cases (c * fx)) as [P | [p P]]; rewrite P.
  - (* the price in yen overflows: nothing is affordable *)
    cbn [fdiv B64.rnd]. rewrite (round_zero (Qeq_refl 0)). cbn [int].
    intros [= <-]. change (Qtrunc 0) with 0%Z.
    rewrite !Qmult_0_l. apply Qmult_le_0_compat; lra.
  - pose proof (round_pos_lower Hn P) as Hl.
    assert (Hp0 : 0 < p).
    { apply Qlt_le_trans with (c * fx * (1 - B64.u)); [|exact Hl].
      apply Qmult_lt_0_compat; lra. }
    cbn [fdiv]. rewrite (Qeq_bool_false_of_lt Hp0). cbn [B64.rnd].
    assert (Hq : 0 < capital / p) by (apply Qlt_shift_div_l; lra).
    rewrite (round_positive Hq).
    destruct (B64.round_pos (capital / p)) as [r| | |] eqn:R; try discriminate.
    cbn [int]. intros [= <-].
    pose proof (round_pos_trunc Hq R) as Ht.
    pose proof (round_pos_nonneg (Qlt_le_weak _ _ Hq) R) as Hr.
    pose proof (Qtrunc_sign_nonneg Hr) as Hm.
    assert (HM : 0 <= inject_Z (Qtrunc r))
      by (change 0 with (inject_Z 0); now rewrite <- Zle_Qle).
    set (M := inject_Z (Qtrunc r)) in *.
    apply Qle_trans with (M * p).
    + rewrite <- Qmult_assoc, (Qmult_comm M), (Qmult_comm M).
      now apply Qmult_le_compat_r.
    + apply Qle_trans with (capital / p * (1 + B64.u) * p).
      * apply Qmult_le_compat_r; [exact Ht | now apply Qlt_le_weak].
      * assert (E : capital / p * (1 + B64.u) * p == capital * (1 + B64.u)).
        { field. intros E. rewrite E in Hp0. discriminate Hp0. }
        rewrite E. apply Qle_refl.
Qed.

(** C1, counterexample.  The close 133.33333333333334 (the float nearest
    to 400/3) at 150 yen per dollar: the product [close * usd_jpy] rounds
    to 20000.0, [max_buy = int(200000 / 20000.0)] is 10, and with the
    default settings and an ATR of 2 the sizer recommends 10 shares; their
    cost, [10 * close * 150], is above the 200000 yen of capital. *)
Lemma rounded_cost_exceeds_capital :
  let close := 4691249611844267 # 35184372088832 in
  B64.round (400 # 3) = Fin close
  /\ B64.mul (Fin close) (Fin 150) = Fin 20000
  /\ B64.max_buy B64.default_settings (Fin close) (Fin 150) = Some 10%Z
  /\ B64.position_shares B64.default_settings (Fin close) (Fin 2) (Fin 150)
     = Some 10%Z
  /\ 200000 < inject_Z 10 * close * 150.
Proof. vm_compute. repeat split. Qed.

(** C1, amended.  For positive [close], [usd_jpy] and initial capital with
    a price in yen [close * usd_jpy] in the normal range of binary64, and
    for every ATR, ATR multiplier and risk tolerance (infinite and [nan]
    included), a share count returned by the sizer costs at most the
    initial capital up to the two roundings of [max_buy]:
    [shares * close * usd_jpy * (1 - 2^-53) <= capital * (1 + 2^-53)]. *)
Theorem cost_within_capital (capital close fx : Q) (risk mult atr : float) :
  0 < capital -> 0 < close -> 0 < fx ->
  B64.pow2 (-1022) <= close * fx ->
  forall shares,
    B64.position_shares (mkSettings (Fin capital) risk mult)
                        (Fin close) atr (Fin fx) = Some shares ->
    inject_Z shares * close * fx * (1 - B64.pow2 (-53))
    <= capital * (1 + B64.pow2 (-53)).
Proof.
  intros Hc Hp Hf Hn shares Hs. fold B64.u.
  destruct u_bounds as [Hu0 Hu1].
  assert (Hpf : 0 < close * fx) by now apply Qmult_lt_0_compat.
  destruct (position_shares_b64_cases _ _ _ _ Hs)
    as [[_ ->] | [_ (r & m & _ & Hm & ->)]].
  - rewrite !Qmult_0_l. apply Qmult_le_0_compat; lra.
  - pose proof (max_buy_bound risk mult Hc Hpf Hn Hm) as Hb.
    apply Qle_trans with (inject_Z m * (close * fx) * (1 - B64.u)); [|exact Hb].
    rewrite <- (Qmult_assoc (inject_Z (Z.min r m))), <- !Qmult_assoc.
    apply Qmult_le_compat_r.
    + rewrite <- Zle_Qle. apply Z.le_min_r.
    + repeat apply Qmult_le_0_compat; lra.
Qed.

Lemma cost_within_capital_witness :
  let close := 4691249611844267 # 35184372088832 in
  0 < 200000 /\ 0 < close /\ 0 < 150
  /\ B64.pow2 (-1022) <= close * 150
  /\ inject_Z 10 * close * 150 * (1 - B64.pow2 (-53))
     <= 200000 * (1 + B64.pow2 (-53)).
Proof.
  intros close.
  assert (Hc : 0 < 200000) by reflexivity.
  assert (Hp : 0 < close) by reflexivity.
  assert (Hf : 0 < 150) by reflexivity.
  assert (Hn : B64.pow2 (-1022) <= close * 150) by (vm_compute; discriminate).
  split; [exact Hc|]. split; [exact Hp|]. split; [exact Hf|]. split; [exact Hn|].
  apply (@cost_within_capital 200000 close 150
           (B64.div (Fin 5) (Fin 100)) (Fin 2) (Fin 2) Hc Hp Hf Hn 10%Z).
  vm_compute. reflexivity.
Defined.

(** C2, counterexample.  The capital widget has no lower bound; with
    -200000 yen (tolerance 5%, multiplier 2, close 100, ATR 2, rate 150)
    the two quotients are [int(-16.67) = -16] and [int(-13.33) = -13] and
    the sizer returns -16 shares: nothing floors the count at 0. *)
Lemma negative_capital_negative_shares :
  position_shares (mkSettings (Fin (-200000)) (Fin (5 # 100)) (Fin 2))
                  (Fin 100) (Fin 2) (Fin 150) = Some (-16)%Z
  /\ (-16 < 0)%Z.
Proof. split; reflexivity. Qed.

(** C2, amended.  When the initial capital and the risk tolerance are not
    negative and [close] and [usd_jpy] are positive, every share count the
    sizer returns is an integer [>= 0], for every ATR and multiplier. *)
Theorem shares_nonnegative (capital risk close fx : Q) (mult atr : float) :
  0 <= capital -> 0 <= risk -> 0 < close -> 0 < fx ->
  forall shares,
    position_shares (mkSettings (Fin capital) (Fin risk) mult)
                    (Fin close) atr (Fin fx) = Some shares ->
    (0 <= shares)%Z.
Proof.
  intros Hc Hr Hp Hf shares Hs.
  assert (Hpf : 0 < close * fx).
  { rewrite <- (Qmult_0_l fx). now apply Qmult_lt_compat_r. }
  destruct (position_shares_cases _ _ _ _ Hs)
    as [[_ ->] | [Hgt (r & m & Hraw & Hm & ->)]]; [lia|].
  rewrite (max_buy_priced capital (Fin risk) mult Hpf) in Hm.
  injection Hm as <-.
  apply Z.min_glb.
  - unfold raw_shares, allowable_risk in Hraw; simpl in Hraw.
    destruct (fgt_finite_l _ _ Hgt) as [E | (x & E & Hx)];
      rewrite E in Hraw; simpl in Hraw.
    + injection Hraw as <-. reflexivity.
    + rewrite (Qeq_bool_false_of_lt Hx) in Hraw. injection Hraw as <-.
      apply Qtrunc_sign_nonneg, Qdiv_nonneg; [|exact Hx].
      now apply Qmult_le_0_compat.
  - apply Qtrunc_sign_nonneg, Qdiv_nonneg; assumption.
Qed.

Lemma shares_nonnegative_witness :
  0 <= 200000 /\ 0 <= 5 # 100 /\ 0 < 100 /\ 0 < 150 /\ (0 <= 13)%Z.
Proof.
  assert (Hc : 0 <= 200000) by discriminate.
  assert (Hr : 0 <= 5 # 100) by discriminate.
  assert (Hp : 0 < 100) by reflexivity.
  assert (Hf : 0 < 150) by reflexivity.
  split; [exact Hc|]. split; [exact Hr|]. split; [exact Hp|]. split; [exact Hf|].
  apply (@shares_nonnegative 200000 (5 # 100) 100 150 (Fin 2) (Fin 2)
           Hc Hr Hp Hf 13%Z).
  reflexivity.
Defined.

(** The raw count against the allowable risk: the quotient is rounded
    once before [int()] truncates it. *)
Lemma raw_shares_bound (a x : Q) (r : Z) :
  0 <= a -> 0 < x ->
  int (B64.div (Fin a) (Fin x)) = Some r ->
  (0 <= r)%Z /\ inject_Z r * x <= a * (1 + B64.u).
Proof.
  intros Ha Hx. unfold B64.div. cbn [fdiv].
  rewrite (Qeq_bool_false_of_lt Hx). cbn [B64.rnd].
  destruct u_bounds as [Hu0 Hu1].
  destruct (proj1 (Qle_lteq 0 a) Ha) as [Hpos | Hz].
  - assert (Hq : 0 < a / x) by (apply Qlt_shift_div_l; lra).
    rewrite (round_positive Hq).
    destruct (B64.round_pos (a / x)) as [v| | |] eqn:R; try discriminate.
    cbn [int]. intros [= <-].
    pose proof (round_pos_trunc Hq R) as Ht.
    pose proof (round_pos_nonneg (Qlt_le_weak _ _ Hq) R) as Hv.
    split; [now apply Qtrunc_sign_nonneg|].
    apply Qle_trans with (a / x * (1 + B64.u) * x).
    + apply Qmult_le_compat_r; [exact Ht | now apply Qlt_le_weak].
    + assert (E : a / x * (1 + B64.u) * x == a * (1 + B64.u)).
      { field. intros E. rewrite E in Hx. discriminate Hx. }
      rewrite E. apply Qle_refl.
  - assert (Hq : a / x == 0) by (rewrite <- Hz; unfold Qdiv; ring).
    rewrite (round_zero Hq). cbn [int]. intros [= <-].
    change (Qtrunc 0) with 0%Z. split; [lia|].
    rewrite Qmult_0_l. apply Qmult_le_0_compat; lra.
Qed.

(** C6, counterexample.  Two inputs on which the capital limit does not
    bind and the exposure is above the allowable risk.  With the default
    settings, a close of 5.0, an ATR of 1.0101010101010102 (the float
    nearest to 100/99) and 150 yen per dollar, the risk per share is
    303.03030303030306 yen, the quotient [10000.0 / 303.03030303030306]
    rounds up to 33.0, and 33 shares carry more than 10000 yen of risk.
    With -200000 yen of capital (close 100, ATR 2) the allowable risk is
    -10000 yen, [int(-16.67) = -16] is below [max_buy = -13], and the
    exposure [-16 * 600 = -9600] is above it. *)
Lemma rounded_exposure_exceeds_allowable_risk :
  let atr := 4549090532697471 # 4503599627370496 in
  let cfg := mkSettings (Fin (-200000)) (B64.div (Fin 5) (Fin 100)) (Fin 2) in
  (B64.round (100 # 99) = Fin atr
   /\ B64.allowable_risk B64.default_settings = Fin 10000
   /\ B64.raw_shares B64.default_settings (Fin 5) (Fin atr) (Fin 150)
      = Some 33%Z
   /\ B64.max_buy B64.default_settings (Fin 5) (Fin 150) = Some 266%Z
   /\ B64.position_shares B64.default_settings (Fin 5) (Fin atr) (Fin 150)
      = Some 33%Z
   /\ fgt (B64.exposure B64.default_settings (Fin 5) (Fin atr) (Fin 150) 33)
          (B64.allowable_risk B64.default_settings) = true)
  /\ (B64.allowable_risk cfg = Fin (-10000)
      /\ B64.raw_shares cfg (Fin 100) (Fin 2) (Fin 150) = Some (-16)%Z
      /\ B64.max_buy cfg (Fin 100) (Fin 150) = Some (-13)%Z
      /\ B64.position_shares cfg (Fin 100) (Fin 2) (Fin 150) = Some (-16)%Z
      /\ fgt (B64.exposure cfg (Fin 100) (Fin 2) (Fin 150) (-16))
             (B64.allowable_risk cfg) = true).
Proof. vm_compute. repeat split. Qed.

(** C6, amended.  Whenever the allowable risk
    [INITIAL_CAPITAL_JPY * RISK_TOLERANCE_PCT] the program computes is a
    number [a >= 0], the exposure [shares * risk_per_share_jpy] of a
    returned share count never exceeds [a * (1 + 2^-53)], the allowable risk
    up to the rounding of the quotient, for every close, ATR, multiplier
    and rate, whether or not the capital limit [max_buy] is the smaller of
    the two counts. *)
Theorem exposure_within_allowable_risk
        (cfg : settings) (close atr fx : float) (a : Q) :
  B64.allowable_risk cfg = Fin a -> 0 <= a ->
  forall shares,
    B64.position_shares cfg close atr fx = Some shares ->
    fgt (B64.exposure cfg close atr fx shares)
        (Fin (a * (1 + B64.pow2 (-53)))) = false.
Proof.
  intros Ea Ha shares Hs. fold B64.u. unfold B64.exposure.
  destruct u_bounds as [Hu0 Hu1].
  assert (Hau : 0 <= a * (1 + B64.u)) by (apply Qmult_le_0_compat; lra).
  destruct (position_shares_b64_cases _ _ _ _ Hs)
    as [[Hgt ->] | [Hgt (r & m & Hraw & _ & ->)]];
    unfold B64.raw_shares in *; rewrite ?Ea in *;
    set (R := B64.risk_per_share_jpy cfg close atr fx) in *.
  - destruct R as [x| | |]; try reflexivity; try discriminate.
    apply fgt_Fin_false. now rewrite Qmult_0_l.
  - destruct (fgt_finite_l _ _ Hgt) as [E | (x & E & Hx)]; rewrite E in *.
    + unfold B64.div in Hraw. cbn [fdiv B64.rnd] in Hraw.
      rewrite (round_zero (Qeq_refl 0)) in Hraw. cbn [int] in Hraw.
      injection Hraw as <-. change (Qtrunc 0) with 0%Z.
      unfold fmul, scale_inf.
      destruct (0 ?= inject_Z (Z.min 0 m)) eqn:C; try reflexivity.
      apply Qlt_alt in C. rewrite <- (Zlt_Qlt 0) in C. lia.
    + destruct (raw_shares_bound Ha Hx Hraw) as [_ Hb].
      apply fgt_Fin_false.
      apply Qle_trans with (inject_Z r * x); [|exact Hb].
      apply Qmult_le_compat_r; [|now apply Qlt_le_weak].
      rewrite <- Zle_Qle. apply Z.le_min_l.
Qed.

Lemma exposure_within_allowable_risk_witness :
  let atr := 4549090532697471 # 4503599627370496 in
  B64.allowable_risk B64.default_settings = Fin 10000
  /\ 0 <= 10000
  /\ fgt (B64.exposure B64.default_settings (Fin 5) (Fin atr) (Fin 150) 33)
         (Fin (10000 * (1 + B64.pow2 (-53)))) = false.
Proof.
  intros atr.
  assert (Ea : B64.allowable_risk B64.default_settings = Fin 10000)
    by (vm_compute; reflexivity).
  assert (Ha : 0 <= 10000) by discriminate.
  split; [exact Ea|]. split; [exact Ha|].
  apply (@exposure_within_allowable_risk B64.default_settings
           (Fin 5) (Fin atr) (Fin 150) 10000 Ea Ha 33%Z).
  vm_compute. reflexivity.
Defined.

(** ** Columns: lengths and row-wise invariants *)

Section Columns.

Local Open Scope nat_scope.

Lemma length_zip_with f (a b : series) :
  length (zip_with f a b) = Nat.min (length a) (length b).
Proof.
  revert b; induction a as [|x a IH]; intros [|y b]; simpl; auto.
Qed.

Lemma length_shift (s : series) : length (shift s) = length s.
Proof.
  destruct s as [|x s]; [reflexivity|].
  unfold shift. cbn [length]. f_equal.
  revert x; induction s as [|y s IH]; intros x; [reflexivity|].
  change (removelast (x :: y :: s)) with (x :: removelast (y :: s)).
  cbn [length]. now rewrite IH.
Qed.

Lemma length_row_max (a b c : series) :
  length (row_max a b c)
  = Nat.min (length a) (Nat.min (length b) (length c)).
Proof.
  revert b c; induction a as [|x a IH]; intros [|y b] [|z c]; simpl; auto.
Qed.

Lemma length_rolling w agg (s : series) : length (rolling w agg s) = length s.
Proof. unfold rolling. now rewrite length_map, length_seq. Qed.

Lemma length_observations (xs : series) : length (observations xs) <= length xs.
Proof.
  induction xs as [|[q| | |] xs IH]; simpl; lia.
Qed.

Lemma length_window w i (s : series) :
  length (window w i s) = Nat.min (i + 1) (length s) - (i + 1 - w).
Proof. unfold window. now rewrite length_skipn, length_firstn. Qed.

(** The value of a rolling aggregation at row [i]. *)
Lemma nth_error_rolling w agg (s : series) i :
  i < length s ->
  nth_error (rolling w agg s) i
  = Some (if w <=? length (observations (window w i s))
          then Fin (agg (observations (window w i s))) else NaN).
Proof.
  intros Hi. unfold rolling.
  rewrite nth_error_map, nth_error_seq.
  apply Nat.ltb_lt in Hi. now rewrite Hi.
Qed.

(** Before the window is full a rolling aggregation has no value. *)
Lemma rolling_short w agg (s : series) i :
  i + 1 < w -> i < length s -> nth_error (rolling w agg s) i = Some NaN.
Proof.
  intros Hw Hi. rewrite nth_error_rolling by exact Hi.
  pose proof (length_observations (window w i s)) as Ho.
  rewrite length_window in Ho.
  destruct (Nat.leb_spec w (length (observations (window w i s))));
    [lia | reflexivity].
Qed.

Lemma Forall_zip_with (P Q' R : float -> Prop) f (a b : series) :
  (forall x y, P x -> Q' y -> R (f x y)) ->
  Forall P a -> Forall Q' b -> Forall R (zip_with f a b).
Proof.
  intros Hf Ha; revert b; induction Ha as [|x a Hx Ha IH];
    intros b Hb; [constructor|].
  destruct Hb as [|y b Hy Hb]; simpl; constructor; auto.
Qed.

Lemma Forall_row_max (P Q' R S : float -> Prop) (a b c : series) :
  (forall x y z, P x -> Q' y -> R z -> S (nanmax (nanmax x y) z)) ->
  Forall P a -> Forall Q' b -> Forall R c -> Forall S (row_max a b c).
Proof.
  intros Hf Ha; revert b c; induction Ha as [|x a Hx Ha IH];
    intros b c Hb Hc; [constructor|].
  destruct Hb as [|y b Hy Hb]; [constructor|].
  destruct Hc as [|z c Hz Hc]; simpl; constructor; auto.
Qed.

Lemma Forall_removelast (P : float -> Prop) (s : series) :
  Forall P s -> Forall P (removelast s).
Proof.
  induction 1 as [|x s Hx Hs IH]; [constructor|].
  destruct s; [constructor|].
  change (removelast (x :: f :: s)) with (x :: removelast (f :: s)).
  now constructor.
Qed.

Lemma Forall_shift (P : float -> Prop) (s : series) :
  P NaN -> Forall P s -> Forall P (shift s).
Proof.
  intros Hn Hs. destruct s; [constructor|].
  unfold shift. constructor; [exact Hn | now apply Forall_removelast].
Qed.

Lemma Forall_window (P : float -> Prop) w i (s : series) :
  Forall P s -> Forall P (window w i s).
Proof.
  intros Hs. unfold window.
  assert (Hf : Forall P (firstn (i + 1) s)).
  { rewrite <- (firstn_skipn (i + 1) s) in Hs.
    now apply Forall_app in Hs. }
  rewrite <- (firstn_skipn (i + 1 - w) (firstn (i + 1) s)) in Hf.
  now apply Forall_app in Hf.
Qed.

(** The observations of a window inherit what holds of the finite values
    of the column. *)
Lemma Forall_observations (P : Q -> Prop) (xs : series) :
  Forall (fun x => forall q, x = Fin q -> P q) xs ->
  Forall P (observations xs).
Proof.
  induction 1 as [|x xs Hx Hxs IH]; [constructor|].
  destruct x; simpl; auto.
Qed.

Lemma observations_all_finite (xs : series) :
  Forall (fun x => is_finite x = true) xs ->
  length (observations xs) = length xs.
Proof.
  induction 1 as [|x xs Hx Hxs IH]; [reflexivity|].
  destruct x; try discriminate. simpl. now rewrite IH.
Qed.

(** Every value of a rolling aggregation is [nan] or the aggregate of a
    full window of observations. *)
Lemma rolling_cases (P : Q -> Prop) w agg (s : series) i x :
  Forall (fun y => forall q, y = Fin q -> P q) s ->
  nth_error (rolling w agg s) i = Some x ->
  x = NaN
  \/ exists obs, x = Fin (agg obs) /\ Forall P obs /\ w <= length obs.
Proof.
  intros Hs Hx.
  assert (Hi : i < length s).
  { rewrite <- (length_rolling w agg s). apply nth_error_Some. congruence. }
  rewrite nth_error_rolling in Hx by exact Hi. injection Hx as <-.
  destruct (Nat.leb_spec w (length (observations (window w i s)))) as [Hw|Hw];
    [right | now left].
  eexists; split; [reflexivity|]. split; [|exact Hw].
  now apply Forall_observations, Forall_window.
Qed.

(** On a column of finite values the aggregation has a value from row
    [w - 1] on. *)
Lemma rolling_full w agg (s : series) i :
  Forall (fun x => is_finite x = true) s ->
  w <= i + 1 -> i < length s ->
  nth_error (rolling w agg s) i
  = Some (Fin (agg (observations (window w i s)))).
Proof.
  intros Hs Hw Hi. rewrite nth_error_rolling by exact Hi.
  rewrite observations_all_finite by now apply Forall_window.
  rewrite length_window.
  destruct (Nat.leb_spec w (Nat.min (i + 1) (length s) - (i + 1 - w)));
    [reflexivity | lia].
Qed.

Lemma nth_error_iloc_last (s : series) :
  s <> [] -> nth_error s (length s - 1) = Some (iloc_last s).
Proof.
  unfold iloc_last.
  induction s as [|x s IH]; [congruence|]. intros _.
  destruct s as [|y s]; [reflexivity|].
  cbn [length] in *. replace (S (S (length s)) - 1) with (S (length s)) by lia.
  replace (S (length s) - 1) with (length s) in IH by lia.
  cbn [nth_error]. rewrite IH by discriminate. reflexivity.
Qed.

Lemma nth_error_zip_with f (a b : series) i x y :
  nth_error a i = Some x -> nth_error b i = Some y ->
  nth_error (zip_with f a b) i = Some (f x y).
Proof.
  revert b i; induction a as [|x' a IH]; intros [|y' b] [|i]; simpl;
    try discriminate.
  - now intros [= ->] [= ->].
  - apply IH.
Qed.

End Columns.

(** ** Aggregates *)

Lemma total_nonneg (xs : list Q) : Forall (fun q => 0 <= q) xs -> 0 <= total xs.
Proof.
  induction 1 as [|x xs Hx Hxs IH]; simpl; [apply Qle_refl|].
  rewrite <- (Qplus_0_r 0). now apply Qplus_le_compat.
Qed.

Lemma total_zero (xs : list Q) : Forall (fun q => q == 0) xs -> total xs == 0.
Proof.
  induction 1 as [|x xs Hx Hxs IH]; simpl; [reflexivity|].
  rewrite Hx, IH. reflexivity.
Qed.

Lemma mean_nonneg (xs : list Q) : Forall (fun q => 0 <= q) xs -> 0 <= mean xs.
Proof.
  intros H. unfold mean, Qdiv.
  apply Qmult_le_0_compat; [now apply total_nonneg|].
  apply Qinv_le_0_compat. rewrite <- (Zle_Qle 0). lia.
Qed.

Lemma mean_zero (xs : list Q) : Forall (fun q => q == 0) xs -> mean xs == 0.
Proof.
  intros H. unfold mean, Qdiv. rewrite (total_zero H). apply Qmult_0_l.
Qed.

(** ** The columns of [calculate_indicators] *)

Section EngineFacts.

Variable df : frame.

Lemma length_column (field : bar -> Q) : length (column field df) = length df.
Proof. apply length_map. Qed.

Lemma column_finite (field : bar -> Q) :
  Forall (fun x => is_finite x = true) (column field df).
Proof. unfold column. apply Forall_map, Forall_forall. reflexivity. Qed.

Lemma shift_column_no_inf (field : bar -> Q) :
  Forall no_inf (shift (column field df)).
Proof.
  apply Forall_shift; [exact I|].
  eapply Forall_impl; [|apply column_finite].
  intros [q| | |]; simpl; try discriminate; auto.
Qed.

(** Every close-to-close difference is finite or, on row 0, [nan]. *)
Lemma delta_no_inf : Forall no_inf (delta df).
Proof.
  unfold delta, diff.
  eapply Forall_zip_with;
    [|apply (column_finite Close) | apply (shift_column_no_inf Close)].
  intros [a| | |] [b| | |]; simpl; try discriminate; auto.
Qed.

Lemma length_delta : length (delta df) = length df.
Proof.
  unfold delta, diff.
  rewrite length_zip_with, length_shift, length_column. apply Nat.min_id.
Qed.

(** The masked columns fed to the two rolling means hold no [nan]: the
    [nan] of row 0 fails the comparison and [where] puts 0 in its place. *)
Lemma gains_nonneg :
  Forall (fin_sat (fun q => 0 <= q))
         (where_ (fun d => fgt d (Fin 0)) (Fin 0) (delta df)).
Proof.
  unfold where_. apply Forall_map.
  eapply Forall_impl; [|apply delta_no_inf].
  intros [d| | |]; simpl; try contradiction; intros _.
  - destruct (0 ?= d) eqn:E; simpl; try discriminate.
    apply Qlt_le_weak. now apply Qlt_alt.
  - discriminate.
Qed.

Lemma losses_nonneg :
  Forall (fin_sat (fun q => 0 <= q))
         (map fneg (where_ (fun d => flt d (Fin 0)) (Fin 0) (delta df))).
Proof.
  unfold where_. rewrite map_map. apply Forall_map.
  eapply Forall_impl; [|apply delta_no_inf].
  intros [d| | |]; simpl; try contradiction; intros _.
  - destruct (d ?= 0) eqn:E; simpl; try discriminate.
    apply Qlt_alt in E. apply (Qopp_le_compat d 0). now apply Qlt_le_weak.
  - discriminate.
Qed.

Lemma fin_sat_finite (P : Q -> Prop) (s : series) :
  Forall (fin_sat P) s -> Forall (fun x => is_finite x = true) s.
Proof.
  apply Forall_impl. intros [q| | |]; simpl; try contradiction; auto.
Qed.

Lemma fin_sat_values (P : Q -> Prop) (s : series) :
  Forall (fin_sat P) s -> Forall (fun x => forall q, x = Fin q -> P q) s.
Proof.
  apply Forall_impl. intros [q| | |]; simpl; try contradiction.
  now intros H q' [= <-].
Qed.

(** A value of the [gain] or [loss] column is never negative. *)
Lemma gain_nonneg i g : nth_error (gain df) i = Some (Fin g) -> 0 <= g.
Proof.
  intros H.
  destruct (@rolling_cases (fun q => 0 <= q) _ _ _ _ _
              (fin_sat_values gains_nonneg) H)
    as [E | (obs & E & Hobs & _)]; [discriminate|].
  injection E as ->. now apply mean_nonneg.
Qed.

Lemma loss_nonneg i l : nth_error (loss df) i = Some (Fin l) -> 0 <= l.
Proof.
  intros H.
  destruct (@rolling_cases (fun q => 0 <= q) _ _ _ _ _
              (fin_sat_values losses_nonneg) H)
    as [E | (obs & E & Hobs & _)]; [discriminate|].
  injection E as ->. now apply mean_nonneg.
Qed.

End EngineFacts.

(** ** RSI *)

Lemma rsi_formula_bounds (x : Q) :
  0 <= x ->
  0 <= 100 + - (100 / (1 + x)) /\ 100 + - (100 / (1 + x)) <= 100.
Proof.
  intros Hx.
  assert (Hy : 0 < 1 + x) by lra.
  assert (H0 : 0 <= 100 / (1 + x)) by (apply Qdiv_nonneg; [discriminate | exact Hy]).
  assert (H1 : 100 / (1 + x) <= 100) by (apply Qle_shift_div_r; [exact Hy | lra]).
  split; lra.
Qed.

Lemma rsi_of_finite (x : Q) :
  0 <= x -> rsi_of (Fin x) = Fin (100 + - (100 / (1 + x))).
Proof.
  intros Hx. unfold rsi_of; simpl.
  rewrite Qeq_bool_false_of_lt by lra. reflexivity.
Qed.

Lemma nth_error_RSI (df : frame) i g l :
  nth_error (gain df) i = Some g ->
  nth_error (loss df) i = Some l ->
  nth_error (RSI (calculate_indicators df)) i = Some (rsi_of (fdiv g l)).
Proof.
  intros Hg Hl. cbn [RSI calculate_indicators]. unfold rs.
  rewrite nth_error_map, (nth_error_zip_with fdiv _ _ _ Hg Hl). reflexivity.
Qed.

(** The three cases of [100 - 100 / (1 + gain / loss)] on averages that
    are not negative. *)
Lemma rsi_of_averages (g l : Q) :
  0 <= g -> 0 <= l ->
  (g == 0 /\ l == 0 /\ rsi_of (fdiv (Fin g) (Fin l)) = NaN)
  \/ (0 < g /\ l == 0 /\ rsi_of (fdiv (Fin g) (Fin l)) = Fin (100 + - 0))
  \/ (0 < l /\ rsi_of (fdiv (Fin g) (Fin l))
               = Fin (100 + - (100 / (1 + g / l)))).
Proof.
  intros Hg Hl. unfold fdiv.
  destruct (Qeq_bool l 0) eqn:El.
  - apply Qeq_bool_eq in El. unfold scale_inf.
    destruct (Qcompare_spec 0 g) as [E|E|E].
    + left. repeat split; auto. now symmetry.
    + right; left. repeat split; auto.
    + exfalso. apply (Qlt_not_le _ _ E Hg).
  - right; right.
    assert (Hl' : 0 < l).
    { apply Qeq_bool_neq in El. apply Qle_lteq in Hl.
      destruct Hl as [Hl|Hl]; [exact Hl|]. exfalso. apply El. now symmetry. }
    split; [exact Hl'|]. apply rsi_of_finite. now apply Qdiv_nonneg.
Qed.

(** C4, counterexample.  On 14 bars of one constant price the 14-bar
    averages of gains and of losses both exist at the last bar and are 0;
    [rs] is [0/0] and the RSI is [nan], which is not in [0, 100]. *)
Lemma flat_window_rsi_nan :
  exists g l,
    nth_error (gain (flat_frame 14 100)) 13 = Some (Fin g)
    /\ nth_error (loss (flat_frame 14 100)) 13 = Some (Fin l)
    /\ nth_error (RSI (calculate_indicators (flat_frame 14 100))) 13 = Some NaN
    /\ fle (Fin 0) NaN = false /\ fle NaN (Fin 100) = false.
Proof.
  do 2 eexists. repeat split; vm_compute; reflexivity.
Qed.

(** C4, amended.  At a bar where the 14-bar averages of gains and losses
    exist and are not both 0, the RSI lies in [0, 100]; it is exactly 100
    when the average loss is 0 and the average gain is positive; when both
    averages are 0 the RSI is [nan]. *)
Theorem rsi_range (df : frame) (i : nat) (g l : Q) :
  nth_error (gain df) i = Some (Fin g) ->
  nth_error (loss df) i = Some (Fin l) ->
  exists r,
    nth_error (RSI (calculate_indicators df)) i = Some r
    /\ (~ (g == 0 /\ l == 0) -> fle (Fin 0) r = true /\ fle r (Fin 100) = true)
    /\ (l == 0 -> 0 < g -> feq r (Fin 100))
    /\ (g == 0 -> l == 0 -> r = NaN).
Proof.
  intros Hg Hl.
  exists (rsi_of (fdiv (Fin g) (Fin l))).
  split; [now apply nth_error_RSI|].
  pose proof (gain_nonneg _ _ Hg) as Hg0.
  pose proof (loss_nonneg _ _ Hl) as Hl0.
  destruct (rsi_of_averages Hg0 Hl0)
    as [(Eg & El & ->) | [(Pg & El & ->) | (Pl & ->)]].
  - split; [|split].
    + intros H. exfalso. apply H. now split.
    + intros _ Pg. rewrite Eg in Pg. discriminate Pg.
    + reflexivity.
  - split; [|split].
    + intros _. split; reflexivity.
    + intros _ _. reflexivity.
    + intros Eg. rewrite Eg in Pg. discriminate Pg.
  - destruct (@rsi_formula_bounds (g / l)) as [B0 B1];
      [now apply Qdiv_nonneg|].
    split; [|split].
    + intros _. split; [now apply (fge_Fin _ 0) | now apply (fge_Fin 100)].
    + intros El. rewrite El in Pl. discriminate Pl.
    + intros _ El. rewrite El in Pl. discriminate Pl.
Qed.

Lemma rsi_range_witness :
  exists g l r,
    nth_error (gain (wave_frame 14)) 13 = Some (Fin g)
    /\ nth_error (loss (wave_frame 14)) 13 = Some (Fin l)
    /\ nth_error (RSI (calculate_indicators (wave_frame 14))) 13 = Some r
    /\ (~ (g == 0 /\ l == 0) -> fle (Fin 0) r = true /\ fle r (Fin 100) = true).
Proof.
  assert (Hg : nth_error (gain (wave_frame 14)) 13
               = Some (Fin (9 # 14)))
    by (vm_compute; reflexivity).
  assert (Hl : nth_error (loss (wave_frame 14)) 13
               = Some (Fin (8 # 14)))
    by (vm_compute; reflexivity).
  destruct (rsi_range _ _ Hg Hl) as (r & Hr & Hb & _).
  exists (9 # 14), (8 # 14), r.
  split; [exact Hg|]. split; [exact Hl|]. split; [exact Hr | exact Hb].
Defined.

(** ** True range and ATR *)

Ltac split_compare :=
  repeat match goal with
         | |- context [match ?p ?= ?q with _ => _ end] =>
             destruct (p ?= q); cbn
         end.

Lemma nanmax_finite (x y z : float) :
  is_finite x = true -> no_inf y -> no_inf z ->
  is_finite (nanmax (nanmax x y) z) = true.
Proof.
  destruct x as [a| | |], y as [b| | |], z as [c| | |]; cbn;
    try discriminate; try contradiction; intros _ _ _;
    split_compare; reflexivity.
Qed.

Lemma nanmax_sat (P : Q -> Prop) (x y z : float) :
  fin_sat P x -> nan_or P y -> nan_or P z -> fin_sat P (nanmax (nanmax x y) z).
Proof.
  destruct x as [a| | |], y as [b| | |], z as [c| | |]; cbn;
    try contradiction; intros Ha Hb Hc;
    split_compare; assumption.
Qed.

Section TrueRangeFacts.

Variable df : frame.

Lemma length_true_range : length (true_range df) = length df.
Proof.
  unfold true_range, high_low, high_close, low_close.
  rewrite length_row_max, !length_map, !length_zip_with, length_shift,
    !length_column.
  rewrite !Nat.min_id. reflexivity.
Qed.

(** The true range has a value on every bar, the first included. *)
Lemma true_range_finite : Forall (fun x => is_finite x = true) (true_range df).
Proof.
  unfold true_range, high_low, high_close, low_close.
  eapply Forall_row_max; [exact nanmax_finite | | |].
  - eapply Forall_zip_with; [|apply column_finite | apply column_finite].
    intros [a| | |] [b| | |]; simpl; try discriminate; auto.
  - apply Forall_map.
    eapply Forall_zip_with; [|apply column_finite | apply (shift_column_no_inf df Close)].
    intros [a| | |] [b| | |]; simpl; try discriminate; try contradiction; auto.
  - apply Forall_map.
    eapply Forall_zip_with; [|apply column_finite | apply (shift_column_no_inf df Close)].
    intros [a| | |] [b| | |]; simpl; try discriminate; try contradiction; auto.
Qed.

(** From the 14th bar on the ATR has a value. *)
Lemma ATR_defined i :
  (13 <= i)%nat -> (i < length df)%nat ->
  exists a, nth_error (ATR (calculate_indicators df)) i = Some (Fin a).
Proof.
  intros Hw Hi. cbn [ATR calculate_indicators].
  eexists. apply rolling_full; [apply true_range_finite | lia |].
  now rewrite length_true_range.
Qed.

End TrueRangeFacts.

Section FlatFacts.

Variable c : Q.
Variable n : nat.

Lemma flat_column (field : bar -> Q) :
  field (mkBar c c c c) = c ->
  Forall (fun x => x = Fin c) (column field (flat_frame n c)).
Proof.
  intros Hf. unfold column, flat_frame. apply Forall_map, Forall_forall.
  intros b Hb. apply repeat_spec in Hb. now rewrite Hb, Hf.
Qed.

Lemma flat_shift_close :
  Forall (fun x => x = Fin c \/ x = NaN) (shift (column Close (flat_frame n c))).
Proof.
  apply Forall_shift; [now right|].
  eapply Forall_impl; [|apply (flat_column Close eq_refl)]. now left.
Qed.

Lemma flat_true_range :
  Forall (fin_sat (fun q => q == 0)) (true_range (flat_frame n c)).
Proof.
  unfold true_range, high_low, high_close, low_close.
  eapply Forall_row_max; [exact (@nanmax_sat (fun q => q == 0)) | | |].
  - eapply Forall_zip_with;
      [|apply (flat_column High eq_refl) | apply (flat_column Low eq_refl)].
    intros x y -> ->. cbn [fin_sat fsub fadd fneg]. apply Qplus_opp_r.
  - apply Forall_map.
    eapply Forall_zip_with;
      [|apply (flat_column High eq_refl) | apply flat_shift_close].
    intros x y -> [-> | ->]; cbn [nan_or fabs fsub fadd fneg]; [|exact I].
    rewrite Qplus_opp_r. reflexivity.
  - apply Forall_map.
    eapply Forall_zip_with;
      [|apply (flat_column Low eq_refl) | apply flat_shift_close].
    intros x y -> [-> | ->]; cbn [nan_or fabs fsub fadd fneg]; [|exact I].
    rewrite Qplus_opp_r. reflexivity.
Qed.

End FlatFacts.

(** C8.  The true range of the first bar of any series is [High - Low];
    on an all-constant series the true range is 0 on every bar, the ATR is
    0 wherever it has a value, and it has one from the 14th bar on. *)
Theorem true_range_first_bar_and_flat_series :
  (forall b rest,
      nth_error (true_range (b :: rest)) 0 = Some (Fin (High b - Low b)))
  /\ (forall c n i, (i < n)%nat ->
        exists q, nth_error (true_range (flat_frame n c)) i = Some (Fin q)
                  /\ q == 0)
  /\ (forall c n i x,
        nth_error (ATR (calculate_indicators (flat_frame n c))) i = Some x ->
        x = NaN \/ feq x (Fin 0))
  /\ (forall c n i, (13 <= i)%nat -> (i < n)%nat ->
        exists q, nth_error (ATR (calculate_indicators (flat_frame n c))) i
                  = Some (Fin q) /\ q == 0).
Proof.
  assert (Hatr : forall c n i x,
             nth_error (ATR (calculate_indicators (flat_frame n c))) i = Some x ->
             x = NaN \/ feq x (Fin 0)).
  { intros c n i x Hx. cbn [ATR calculate_indicators] in Hx.
    destruct (@rolling_cases (fun q => q == 0) _ _ _ _ _
                (fin_sat_values (flat_true_range c n)) Hx)
      as [E | (obs & -> & Hobs & _)]; [now left | right].
    simpl. now apply mean_zero. }
  split; [|split; [|split]].
  - intros b rest. reflexivity.
  - intros c n i Hi.
    assert (Hlen : (i < length (true_range (flat_frame n c)))%nat).
    { rewrite length_true_range. unfold flat_frame. now rewrite repeat_length. }
    apply nth_error_Some in Hlen.
    destruct (nth_error (true_range (flat_frame n c)) i) as [x|] eqn:E;
      [|congruence].
    pose proof (flat_true_range c n) as Hall.
    rewrite Forall_forall in Hall.
    specialize (Hall x (nth_error_In _ _ E)).
    destruct x as [q| | |]; simpl in Hall; try contradiction.
    now exists q.
  - exact Hatr.
  - intros c n i Hw Hi.
    destruct (@ATR_defined (flat_frame n c) i Hw) as [a Ha].
    { unfold flat_frame. now rewrite repeat_length. }
    exists a. split; [exact Ha|].
    destruct (Hatr _ _ _ _ Ha) as [E | E]; [discriminate | exact E].
Qed.

Lemma true_range_first_bar_and_flat_series_witness :
  (exists q, nth_error (true_range (flat_frame 20 100)) 5 = Some (Fin q) /\ q == 0)
  /\ (exists q, nth_error (ATR (calculate_indicators (flat_frame 20 100))) 13
                = Some (Fin q) /\ q == 0).
Proof.
  destruct true_range_first_bar_and_flat_series as (_ & Htr & _ & Hatr).
  split.
  - apply (Htr 100 20%nat 5%nat). apply Nat.ltb_lt. reflexivity.
  - apply (Hatr 100 20%nat 13%nat); [apply Nat.leb_le | apply Nat.ltb_lt];
      reflexivity.
Defined.

(** ** Warm-up rows and the last row *)

Section WarmUp.

Variable df : frame.

Local Open Scope nat_scope.

Lemma length_gain_input :
  length (where_ (fun d => fgt d (Fin 0)) (Fin 0) (delta df)) = length df.
Proof. unfold where_. now rewrite length_map, length_delta. Qed.

Lemma length_loss_input :
  length (map fneg (where_ (fun d => flt d (Fin 0)) (Fin 0) (delta df)))
  = length df.
Proof. unfold where_. now rewrite !length_map, length_delta. Qed.

Lemma gain_short i :
  i < 13 -> i < length df -> nth_error (gain df) i = Some NaN.
Proof.
  intros Hw Hi. apply rolling_short; [lia | now rewrite length_gain_input].
Qed.

Lemma loss_short i :
  i < 13 -> i < length df -> nth_error (loss df) i = Some NaN.
Proof.
  intros Hw Hi. apply rolling_short; [lia | now rewrite length_loss_input].
Qed.

(** Both averages exist from the 14th bar on: row 0 of the masked
    differences holds 0, not [nan]. *)
Lemma gain_defined i :
  13 <= i -> i < length df -> exists g, nth_error (gain df) i = Some (Fin g).
Proof.
  intros Hw Hi. eexists.
  apply rolling_full;
    [apply (fin_sat_finite (gains_nonneg df)) | lia
    | now rewrite length_gain_input].
Qed.

Lemma loss_defined i :
  13 <= i -> i < length df -> exists l, nth_error (loss df) i = Some (Fin l).
Proof.
  intros Hw Hi. eexists.
  apply rolling_full;
    [apply (fin_sat_finite (losses_nonneg df)) | lia
    | now rewrite length_loss_input].
Qed.

Lemma length_RSI : length (RSI (calculate_indicators df)) = length df.
Proof.
  cbn [RSI calculate_indicators]. unfold rs, gain, loss.
  rewrite length_map, length_zip_with, !length_rolling,
    length_gain_input, length_loss_input.
  apply Nat.min_id.
Qed.

(** The value of a rolling aggregation of a finite column at the last row. *)
Lemma iloc_last_rolling w agg (s : series) :
  Forall (fun x => is_finite x = true) s ->
  0 < w -> w <= length s ->
  exists q, iloc_last (rolling w agg s) = Fin q.
Proof.
  intros Hs Hw Hl.
  assert (Hne : rolling w agg s <> []).
  { intros E. apply (f_equal (@length float)) in E.
    rewrite length_rolling in E. simpl in E. lia. }
  pose proof (nth_error_iloc_last Hne) as Hlast.
  rewrite length_rolling in Hlast.
  rewrite rolling_full in Hlast by (try assumption; lia).
  injection Hlast as <-. now eexists.
Qed.

End WarmUp.

(** C9, counterexample.  On 14 bars with closes 100, 101, 102, 100, ...
    the RSI of the 14th bar (row 13) has the value 900/17: the window of
    rows 0..13 is full because [where] replaced the undefined difference
    of row 0 by 0. *)
Lemma rsi_defined_on_14th_bar :
  length (wave_frame 14) = 14%nat
  /\ nth_error (RSI (calculate_indicators (wave_frame 14))) 13
     = Some (Fin (12600 # 238))
  /\ 12600 # 238 == 900 # 17.
Proof. repeat split; vm_compute; reflexivity. Qed.

(** C9, amended.  The RSI and ATR columns are both undefined on the first
    13 bars of any series (rows 0..12).  On the 14th bar the ATR and both
    14-bar averages have a value, so the RSI has one too unless the two
    averages are 0. *)
Theorem warm_up_rows (df : frame) :
  (forall i, (i < 13)%nat -> (i < length df)%nat ->
      nth_error (RSI (calculate_indicators df)) i = Some NaN
      /\ nth_error (ATR (calculate_indicators df)) i = Some NaN)
  /\ ((14 <= length df)%nat ->
      exists a g l r,
        nth_error (ATR (calculate_indicators df)) 13 = Some (Fin a)
        /\ nth_error (gain df) 13 = Some (Fin g)
        /\ nth_error (loss df) 13 = Some (Fin l)
        /\ nth_error (RSI (calculate_indicators df)) 13 = Some r
        /\ (~ (g == 0 /\ l == 0) -> is_finite r = true)).
Proof.
  split.
  - intros i Hw Hi. split.
    + now rewrite (nth_error_RSI _ _ (gain_short df Hw Hi) (loss_short df Hw Hi)).
    + cbn [ATR calculate_indicators].
      apply rolling_short; [lia | now rewrite length_true_range].
  - intros Hlen.
    destruct (@ATR_defined df 13) as [a Ha]; [lia | lia |].
    destruct (@gain_defined df 13) as [g Hg]; [lia | lia |].
    destruct (@loss_defined df 13) as [l Hl]; [lia | lia |].
    exists a, g, l, (rsi_of (fdiv (Fin g) (Fin l))).
    repeat (split; [assumption|]).
    split; [now apply nth_error_RSI|].
    intros Hz.
    destruct (rsi_of_averages (gain_nonneg _ _ Hg) (loss_nonneg _ _ Hl))
      as [(Eg & El & _) | [(_ & _ & ->) | (_ & ->)]]; try reflexivity.
    exfalso. apply Hz. now split.
Qed.

Lemma warm_up_rows_witness :
  nth_error (RSI (calculate_indicators (wave_frame 14))) 12 = Some NaN
  /\ nth_error (ATR (calculate_indicators (wave_frame 14))) 12 = Some NaN.
Proof.
  apply (proj1 (warm_up_rows (wave_frame 14)) 12%nat);
    apply Nat.ltb_lt; reflexivity.
Defined.

Lemma iloc_last_of_nth_error (s : series) i x :
  length s = S i -> nth_error s i = Some x -> iloc_last s = x.
Proof.
  intros Hl Hx.
  assert (Hne : s <> []) by (intros ->; discriminate Hl).
  pose proof (nth_error_iloc_last Hne) as H.
  rewrite Hl in H. simpl in H. rewrite Nat.sub_0_r in H. congruence.
Qed.

Lemma iloc_last_column (field : bar -> Q) (df : frame) :
  df <> [] -> exists c, iloc_last (column field df) = Fin c.
Proof.
  intros Hne.
  assert (Hc : column field df <> []) by (destruct df; [congruence | discriminate]).
  pose proof (nth_error_iloc_last Hc) as H.
  apply nth_error_In in H.
  pose proof (column_finite df field) as Hall.
  rewrite Forall_forall in Hall. specialize (Hall _ H).
  destruct (iloc_last (column field df)) as [c| | |]; try discriminate.
  now exists c.
Qed.

(** The close and the ATR of the last row of a frame that passes the
    length guard are finite. *)
Lemma last_row_finite_inputs (df : frame) :
  (250 <= length df)%nat ->
  exists c a,
    iloc_last (column Close df) = Fin c
    /\ iloc_last (ATR (calculate_indicators df)) = Fin a.
Proof.
  intros Hlen.
  destruct (@iloc_last_column Close df) as [c Hc];
    [intros ->; simpl in Hlen; lia|].
  destruct (@iloc_last_rolling 14 mean (true_range df)) as [a Ha];
    [apply true_range_finite | lia | rewrite length_true_range; lia |].
  now exists c, a.
Qed.

(** On a frame of finite prices with at least 250 bars the close, SMA_200,
    High_52W and ATR of the most recent bar are finite numbers; both 14-bar
    averages exist there, and the RSI of that bar is [nan] exactly when
    both averages are 0. *)
Lemma finite_frame_last_row (df : frame) :
  (250 <= length df)%nat ->
  exists c s h a g l,
    iloc_last (column Close df) = Fin c
    /\ iloc_last (SMA_200 (calculate_indicators df)) = Fin s
    /\ iloc_last (High_52W (calculate_indicators df)) = Fin h
    /\ iloc_last (ATR (calculate_indicators df)) = Fin a
    /\ iloc_last (gain df) = Fin g
    /\ iloc_last (loss df) = Fin l
    /\ (iloc_last (RSI (calculate_indicators df)) = NaN <-> g == 0 /\ l == 0).
Proof.
  intros Hlen.
  destruct (@iloc_last_column Close df) as [c Hc];
    [intros ->; simpl in Hlen; lia|].
  destruct (@iloc_last_rolling 200 mean (column Close df)) as [s Hs];
    [apply column_finite | lia | rewrite length_column; lia |].
  destruct (@iloc_last_rolling 250 maximum (column High df)) as [h Hh];
    [apply column_finite | lia | rewrite length_column; lia |].
  destruct (@iloc_last_rolling 14 mean (true_range df)) as [a Ha];
    [apply true_range_finite | lia | rewrite length_true_range; lia |].
  destruct (@gain_defined df (length df - 1)) as [g Hg]; [lia | lia |].
  destruct (@loss_defined df (length df - 1)) as [l Hl]; [lia | lia |].
  exists c, s, h, a, g, l.
  repeat (split; [assumption|]).
  assert (Hrow : forall col : series,
             length col = length df -> length col = S (length df - 1))
    by (intros col ->; lia).
  split; [|split].
  - apply (iloc_last_of_nth_error _ (i := (length df - 1)%nat)); [|exact Hg].
    apply Hrow. unfold gain. now rewrite length_rolling, length_gain_input.
  - apply (iloc_last_of_nth_error _ (i := (length df - 1)%nat)); [|exact Hl].
    apply Hrow. unfold loss. now rewrite length_rolling, length_loss_input.
  - rewrite (@iloc_last_of_nth_error _ (length df - 1)%nat _
               (Hrow _ (length_RSI df)) (nth_error_RSI _ _ Hg Hl)).
    destruct (rsi_of_averages (gain_nonneg _ _ Hg) (loss_nonneg _ _ Hl))
      as [(Eg & El & ->) | [(Pg & El & ->) | (Pl & ->)]].
    + split; [now split | reflexivity].
    + split; [discriminate|]. intros [Eg _]. rewrite Eg in Pg. discriminate Pg.
    + split; [discriminate|]. intros [_ El]. rewrite El in Pl. discriminate Pl.
Qed.

(** On a frame of finite prices the table engine is [calculate_indicators]. *)
Lemma table_of_indicators (df : frame) :
  Raw.calculate_indicators (table_of df) = calculate_indicators df
  /\ Raw.column Raw.Close (table_of df) = column Close df.
Proof.
  unfold Raw.calculate_indicators, calculate_indicators.
  unfold Raw.rs, rs, Raw.gain, gain, Raw.loss, loss, Raw.delta, delta,
    Raw.true_range, true_range, Raw.high_low, high_low,
    Raw.high_close, high_close, Raw.low_close, low_close,
    Raw.column, column, table_of.
  rewrite !map_map. split; reflexivity.
Qed.

Lemma quoted_finite (x : float) :
  Raw.quoted x = true -> x = Fin (cell_value x).
Proof. destruct x; [reflexivity | discriminate..]. Qed.

(** The three columns read from a table of priced rows are columns of
    finite prices. *)
Lemma priced_columns (df : Raw.table) :
  forallb Raw.priced df = true ->
  Raw.column Raw.Close df = column Close (map bar_of_row df)
  /\ Raw.column Raw.High df = column High (map bar_of_row df)
  /\ Raw.column Raw.Low df = column Low (map bar_of_row df).
Proof.
  unfold Raw.column, column. rewrite !map_map.
  induction df as [|r df IH]; [repeat split|].
  cbn [forallb map]. unfold Raw.priced at 1.
  rewrite !andb_true_iff. intros [[[Hc Hh] Hl] Hall].
  destruct (IH Hall) as (-> & -> & ->).
  cbn [bar_of_row Close High Low].
  rewrite <- (quoted_finite _ Hc), <- (quoted_finite _ Hh),
    <- (quoted_finite _ Hl).
  repeat split.
Qed.

Lemma priced_indicators (df : Raw.table) :
  forallb Raw.priced df = true ->
  Raw.calculate_indicators df = calculate_indicators (map bar_of_row df)
  /\ Raw.gain df = gain (map bar_of_row df)
  /\ Raw.loss df = loss (map bar_of_row df).
Proof.
  intros H. destruct (priced_columns df H) as (Ec & Eh & El).
  unfold Raw.calculate_indicators, calculate_indicators.
  unfold Raw.rs, rs, Raw.gain, gain, Raw.loss, loss, Raw.delta, delta,
    Raw.true_range, true_range, Raw.high_low, high_low,
    Raw.high_close, high_close, Raw.low_close, low_close.
  rewrite Ec, Eh, El. repeat split.
Qed.

(** C10, counterexample.  Two tables of 250 rows that pass the length
    guard.  On 250 bars of one constant price both 14-bar averages of the
    last bar are 0 and the RSI, which the metric widget shows, is [nan].
    On [gap_table], where one day in the last 200 has no quote, the SMA_200
    and the High_52W of the last bar are [nan]: the trend comparison reads
    an undefined SMA_200 and labels the ticker Bearish. *)
Lemma last_row_undefined :
  ((length (table_of (flat_frame 250 100)) <? 250)%nat = false
   /\ iloc_last (RSI (Raw.calculate_indicators (table_of (flat_frame 250 100))))
      = NaN)
  /\ ((length gap_table <? 250)%nat = false
      /\ iloc_last (SMA_200 (Raw.calculate_indicators gap_table)) = NaN
      /\ iloc_last (High_52W (Raw.calculate_indicators gap_table)) = NaN
      /\ In (Trend_label Bearish)
            (Raw.analyse B64.default_settings (Fin 150) None
                         (fun _ => Some gap_table) "SPY" "S&P 500 ETF")).
Proof. vm_compute. repeat split. tauto. Qed.

(** C10, amended.  For every table of at least 250 rows in which no close,
    high or low is missing (each is a finite number, of magnitude at most
    [2^1000]), the close, SMA_200, High_52W and ATR of the most recent bar
    are finite numbers, so the trend comparison, the opportunity
    classification and the sizer never read an undefined value; both
    14-bar averages exist there, and the RSI of that bar is [nan] exactly
    when both averages are 0. *)
Theorem last_row_defined (df : Raw.table) :
  (250 <= length df)%nat ->
  forallb Raw.priced df = true ->
  exists c s h a g l,
    iloc_last (Raw.column Raw.Close df) = Fin c
    /\ iloc_last (SMA_200 (Raw.calculate_indicators df)) = Fin s
    /\ iloc_last (High_52W (Raw.calculate_indicators df)) = Fin h
    /\ iloc_last (ATR (Raw.calculate_indicators df)) = Fin a
    /\ iloc_last (Raw.gain df) = Fin g
    /\ iloc_last (Raw.loss df) = Fin l
    /\ (iloc_last (RSI (Raw.calculate_indicators df)) = NaN
        <-> g == 0 /\ l == 0).
Proof.
  intros Hlen Hp.
  destruct (priced_indicators df Hp) as (-> & -> & ->).
  destruct (priced_columns df Hp) as (-> & _ & _).
  apply finite_frame_last_row.
  now rewrite length_map.
Qed.

Lemma last_row_defined_witness :
  exists c s h a,
    iloc_last (Raw.column Raw.Close (table_of (wave_frame 250))) = Fin c
    /\ iloc_last (SMA_200 (Raw.calculate_indicators (table_of (wave_frame 250))))
       = Fin s
    /\ iloc_last (High_52W (Raw.calculate_indicators (table_of (wave_frame 250))))
       = Fin h
    /\ iloc_last (ATR (Raw.calculate_indicators (table_of (wave_frame 250))))
       = Fin a.
Proof.
  assert (Hlen : (250 <= length (table_of (wave_frame 250)))%nat)
    by (apply Nat.leb_le; vm_compute; reflexivity).
  assert (Hp : forallb Raw.priced (table_of (wave_frame 250)) = true)
    by (vm_compute; reflexivity).
  destruct (last_row_defined (table_of (wave_frame 250)) Hlen Hp)
    as (c & s & h & a & g & l & Hc & Hs & Hh & Ha & _).
  exists c, s, h, a. auto.
Defined.

(** ** Classification and the per-ticker column *)


(** The scenarios of the classifier: 100 against a high of 100, 115, 105. *)
Example classify_scenarios :
  classify (Fin 100) (Fin 100) = AtHighs
  /\ classify (Fin 100) (Fin 115) = RoomAvailable
  /\ feq (dist_to_high_pct (Fin 100) (Fin 115)) (Fin 15)
  /\ classify (Fin 100) (Fin 105) = NearResistance
  /\ feq (dist_to_high_pct (Fin 100) (Fin 100)) (Fin 0).
Proof. repeat split. Qed.

(** With finite settings and a positive close the sizer returns a share
    count for every ATR and every rate, infinite or [nan] included. *)
Lemma position_shares_returns (capital risk mult c a : Q) (fx : float) :
  0 < c ->
  exists shares,
    position_shares (mkSettings (Fin capital) (Fin risk) (Fin mult))
                    (Fin c) (Fin a) fx = Some shares.
Proof.
  intros Hc. unfold position_shares.
  destruct (fgt _ _) eqn:E; [|now eexists].
  unfold raw_shares, max_buy, allowable_risk.
  unfold risk_per_share_jpy, stop_loss in *.
  cbn [INITIAL_CAPITAL_JPY RISK_TOLERANCE_PCT ATR_MULTIPLIER] in *.
  cbn [fsub fadd fneg fmul] in *.
  set (d := c + - (c + - (mult * a))) in *.
  destruct fx as [f| | |]; cbn [fmul] in *.
  - apply fgt_Fin in E.
    cbn [fdiv]. rewrite (Qeq_bool_false_of_lt E).
    destruct (Qeq_bool (c * f) 0) eqn:F; [|cbn; now eexists].
    exfalso. apply Qeq_bool_eq in F.
    apply Qmult_integral in F. destruct F as [F|F].
    + rewrite F in Hc. discriminate Hc.
    + rewrite F, Qmult_0_r in E. discriminate E.
  - assert (Hs : scale_inf true c = PInf).
    { unfold scale_inf. now rewrite (proj1 (Qlt_alt 0 c) Hc). }
    rewrite Hs. unfold scale_inf in *.
    destruct (0 ?= d); try discriminate. cbn. now eexists.
  - assert (Hs : scale_inf false c = NInf).
    { unfold scale_inf. now rewrite (proj1 (Qlt_alt 0 c) Hc). }
    rewrite Hs. unfold scale_inf in *.
    destruct (0 ?= d); try discriminate. cbn. now eexists.
  - discriminate.
Qed.

Lemma commentary_not_position (r : reply) :
  commentary r <> No_entry
  /\ forall shares stop, commentary r <> Position shares stop.
Proof.
  destruct r as [s|msg]; simpl; [split; intros; discriminate|].
  destruct (contains "429" msg || contains "RESOURCE_EXHAUSTED" msg);
    [|destruct (contains "404" msg)]; split; intros; discriminate.
Qed.

Lemma commentary_is_annotation (r : reply) :
  commentary r <> System_error
  /\ commentary r <> No_entry
  /\ forall shares stop, commentary r <> Position shares stop.
Proof.
  destruct r as [s|msg]; simpl; [repeat split; intros; discriminate|].
  destruct (contains "429" msg || contains "RESOURCE_EXHAUSTED" msg);
    [|destruct (contains "404" msg)]; repeat split; intros; discriminate.
Qed.

Lemma opportunity_widget_not_position (close high_52 : float) :
  opportunity_widget close high_52 <> No_entry
  /\ forall shares stop, opportunity_widget close high_52 <> Position shares stop.
Proof.
  unfold opportunity_widget.
  destruct (classify close high_52); split; intros; discriminate.
Qed.

Section RunFacts.

Variable cfg : settings.
Variable usd_jpy : float.
Variable client : option (string -> reply).
Variable download : string -> option frame.

(** A frame that passes the length guard gets the four leading widgets and
    then the position block. *)
Lemma analyse_long ticker name df :
  download ticker = Some df -> (250 <= length df)%nat ->
  analyse cfg usd_jpy client download ticker name
  = Subheader name ticker
    :: Metric (iloc_last (column Close df))
              (iloc_last (RSI (calculate_indicators df)))
    :: Trend_label (trend_of (iloc_last (column Close df))
                             (iloc_last (SMA_200 (calculate_indicators df))))
    :: opportunity_widget (iloc_last (column Close df))
                          (iloc_last (High_52W (calculate_indicators df)))
    :: position_block cfg usd_jpy client name
         (iloc_last (column Close df))
         (iloc_last (ATR (calculate_indicators df)))
         (iloc_last (SMA_200 (calculate_indicators df))).
Proof.
  intros Hd Hlen. unfold analyse. rewrite Hd.
  destruct (Nat.eqb_spec (length df) 0); [lia|].
  destruct (Nat.ltb_spec (length df) 250); [lia|].
  reflexivity.
Qed.

Lemma analyse_short ticker name df :
  download ticker = Some df -> (length df < 250)%nat ->
  analyse cfg usd_jpy client download ticker name = [Data_shortage ticker].
Proof.
  intros Hd Hlen. unfold analyse. rewrite Hd.
  apply Nat.ltb_lt in Hlen. rewrite Hlen, orb_true_r. reflexivity.
Qed.

Lemma run_app l1 l2 :
  run cfg usd_jpy client download (l1 ++ l2)
  = run cfg usd_jpy client download l1 ++ run cfg usd_jpy client download l2.
Proof. apply map_app. Qed.

End RunFacts.

(** C5.  A downloaded series of fewer than 250 bars (an empty one
    included) puts the data-shortage message, and nothing else, in the
    ticker's column; the run goes on, and the columns of the tickers before
    and after it are what they are without it. *)
Theorem insufficient_data_skips_ticker
        (cfg : settings) (usd_jpy : float) (client : option (string -> reply))
        (download : string -> option frame)
        (before after : list (string * string)) (ticker name : string)
        (df : frame) :
  download ticker = Some df ->
  (length df < 250)%nat ->
  analyse cfg usd_jpy client download ticker name = [Data_shortage ticker]
  /\ run cfg usd_jpy client download (before ++ (ticker, name) :: after)
     = run cfg usd_jpy client download before
       ++ (ticker, [Data_shortage ticker])
       :: run cfg usd_jpy client download after.
Proof.
  intros Hd Hlen.
  pose proof (analyse_short cfg usd_jpy client download ticker name Hd Hlen) as Ha.
  split; [exact Ha|].
  rewrite run_app. f_equal.
  change (run cfg usd_jpy client download ((ticker, name) :: after))
    with ((ticker, analyse cfg usd_jpy client download ticker name)
          :: run cfg usd_jpy client download after).
  now rewrite Ha.
Qed.

Lemma insufficient_data_skips_ticker_witness :
  let download := fun t : string =>
                    if String.eqb t "TSLA" then Some (flat_frame 100 5)
                    else Some (wave_frame 250) in
  run default_settings (Fin 150) None download TARGETS
  = run default_settings (Fin 150) None download [("NVDA", "NVIDIA Corp")%string]
    ++ ("TSLA"%string, [Data_shortage "TSLA"])
    :: run default_settings (Fin 150) None download [("SPY", "S&P 500 ETF")%string].
Proof.
  intros download.
  apply (proj2 (@insufficient_data_skips_ticker
                  default_settings (Fin 150) None download
                  [("NVDA", "NVIDIA Corp")%string]
                  [("SPY", "S&P 500 ETF")%string]
                  "TSLA"%string "Tesla Inc"%string (flat_frame 100 5)
                  eq_refl
                  (proj1 (Nat.ltb_lt (length (flat_frame 100 5)) 250) eq_refl))).
Defined.

Lemma raw_opportunity_widget_kind (close high_52 : float) :
  Raw.opportunity_widget close high_52 <> System_error
  /\ Raw.opportunity_widget close high_52 <> No_entry
  /\ forall shares stop,
       Raw.opportunity_widget close high_52 <> Position shares stop.
Proof.
  unfold Raw.opportunity_widget.
  destruct (B64.classify close high_52); repeat split; intros; discriminate.
Qed.

(** A table that passes the length guard gets the four leading widgets and
    then the position block. *)
Lemma raw_analyse_long cfg usd_jpy client download ticker name df :
  download ticker = Some df -> (250 <= length df)%nat ->
  Raw.analyse cfg usd_jpy client download ticker name
  = Subheader name ticker
    :: Metric (iloc_last (Raw.column Raw.Close df))
              (iloc_last (RSI (Raw.calculate_indicators df)))
    :: Trend_label (trend_of (iloc_last (Raw.column Raw.Close df))
                             (iloc_last (SMA_200 (Raw.calculate_indicators df))))
    :: Raw.opportunity_widget
         (iloc_last (Raw.column Raw.Close df))
         (iloc_last (High_52W (Raw.calculate_indicators df)))
    :: Raw.position_block cfg usd_jpy client name
         (iloc_last (Raw.column Raw.Close df))
         (iloc_last (ATR (Raw.calculate_indicators df)))
         (iloc_last (SMA_200 (Raw.calculate_indicators df))).
Proof.
  intros Hd Hlen. unfold Raw.analyse. rewrite Hd.
  destruct (Nat.eqb_spec (length df) 0); [lia|].
  destruct (Nat.ltb_spec (length df) 250); [lia|].
  reflexivity.
Qed.

(** C7, counterexample.  [sunk_table] has 250 rows and ends on a close of
    exactly 0 above an SMA_200 of -0.995: the trend is Bullish, the risk
    per share is positive, and [int()] raises on
    [INITIAL_CAPITAL_JPY / (0 * usd_jpy)]; the column ends on the error
    message and shows no position. *)
Lemma bullish_without_position :
  let close := iloc_last (Raw.column Raw.Close sunk_table) in
  let sma_200 := iloc_last (SMA_200 (Raw.calculate_indicators sunk_table)) in
  let atr := iloc_last (ATR (Raw.calculate_indicators sunk_table)) in
  (length sunk_table <? 250)%nat = false
  /\ trend_of close sma_200 = Bullish
  /\ fgt (B64.risk_per_share_jpy B64.default_settings close atr (Fin 150))
         (Fin 0) = true
  /\ B64.max_buy B64.default_settings close (Fin 150) = None
  /\ Raw.analyse B64.default_settings (Fin 150) None
                 (fun _ => Some sunk_table) "SPY" "S&P 500 ETF"
     = [Subheader "S&P 500 ETF" "SPY"; Metric (Fin 0) (Fin 100);
        Trend_label Bullish; At_highs; System_error].
Proof. vm_compute. repeat split. Qed.

(** C7, amended.  For a ticker whose table has at least 250 rows, whatever
    the settings, the rate and the cells: the trend label shown is Bullish
    exactly when the latest close is strictly above the latest SMA_200,
    Bearish otherwise.  A position is shown only under a Bullish trend.  A
    Bearish trend shows the refusal, no position and no error.  A Bullish
    trend never shows the refusal; it shows the share count of the sizer
    and its stop-loss price when the sizer returns, and the error message
    and no position when one of its [int()] calls raises. *)
Theorem trend_gates_position
        (cfg : settings) (usd_jpy : float)
        (client : option (string -> reply))
        (download : string -> option Raw.table)
        (ticker name : string) (df : Raw.table) :
  download ticker = Some df ->
  (250 <= length df)%nat ->
  let close := iloc_last (Raw.column Raw.Close df) in
  let sma_200 := iloc_last (SMA_200 (Raw.calculate_indicators df)) in
  let atr := iloc_last (ATR (Raw.calculate_indicators df)) in
  let shown := Raw.analyse cfg usd_jpy client download ticker name in
  (trend_of close sma_200 = Bullish <-> fgt close sma_200 = true)
  /\ (trend_of close sma_200 = Bearish <-> fgt close sma_200 = false)
  /\ In (Trend_label (trend_of close sma_200)) shown
  /\ ((exists shares stop, In (Position shares stop) shown) ->
      trend_of close sma_200 = Bullish)
  /\ (trend_of close sma_200 = Bullish ->
      ~ In No_entry shown
      /\ match B64.position_shares cfg close atr usd_jpy with
         | Some shares =>
             In (Position shares (B64.stop_loss cfg close atr)) shown
             /\ ~ In System_error shown
         | None =>
             In System_error shown
             /\ forall shares stop, ~ In (Position shares stop) shown
         end)
  /\ (trend_of close sma_200 = Bearish ->
      In No_entry shown
      /\ ~ In System_error shown
      /\ forall shares stop, ~ In (Position shares stop) shown).
Proof.
  intros Hd Hlen close sma_200 atr shown.
  assert (Hshown : shown = _)
    by exact (@raw_analyse_long cfg usd_jpy client download ticker name df
                                Hd Hlen).
  fold close sma_200 atr in Hshown.
  destruct (raw_opportunity_widget_kind
              close (iloc_last (High_52W (Raw.calculate_indicators df))))
    as (Ho1 & Ho2 & Ho3).
  assert (Hc : forall w, In w match client with
                              | Some ask => [commentary (ask name)]
                              | None => []
                              end ->
                         w <> System_error /\ w <> No_entry
                         /\ forall shares stop, w <> Position shares stop).
  { intros w Hw. destruct client as [ask|]; [|destruct Hw].
    destruct Hw as [<-|[]]. apply commentary_is_annotation. }
  unfold trend_of, is_bull.
  split; [destruct (fgt close sma_200); split; congruence|].
  split; [destruct (fgt close sma_200); split; congruence|].
  split; [rewrite Hshown; simpl; tauto|].
  rewrite Hshown. unfold Raw.position_block, is_bull.
  destruct (fgt close sma_200) eqn:B.
  - split; [reflexivity|]. split; [intros _ | discriminate].
    destruct (B64.position_shares cfg close atr usd_jpy) as [shares|].
    + split; [|split].
      * simpl. intros [H|[H|[H|[H|[H|H]]]]]; try discriminate H.
        -- now apply Ho2.
        -- destruct (Hc _ H) as (_ & N & _). now apply N.
      * simpl. tauto.
      * simpl. intros [H|[H|[H|[H|[H|H]]]]]; try discriminate H.
        -- now apply Ho1.
        -- destruct (Hc _ H) as (N & _). now apply N.
    + split; [|split].
      * simpl. intros [H|[H|[H|[H|[H|[]]]]]]; try discriminate H.
        now apply Ho2.
      * simpl. tauto.
      * intros shares stop. simpl.
        intros [H|[H|[H|[H|[H|[]]]]]]; try discriminate H.
        now apply (Ho3 shares stop).
  - split.
    + intros (shares & stop & H). simpl in H.
      destruct H as [H|[H|[H|[H|[H|[]]]]]]; try discriminate H.
      now apply (Ho3 shares stop) in H.
    + split; [discriminate | intros _].
      split; [simpl; tauto|]. split.
      * simpl. intros [H|[H|[H|[H|[H|[]]]]]]; try discriminate H.
        now apply Ho1.
      * intros shares stop. simpl.
        intros [H|[H|[H|[H|[H|[]]]]]]; try discriminate H.
        now apply (Ho3 shares stop).
Qed.

Lemma trend_gates_position_witness :
  let df := table_of (wave_frame 252) in
  let close := iloc_last (Raw.column Raw.Close df) in
  let atr := iloc_last (ATR (Raw.calculate_indicators df)) in
  let shown := Raw.analyse B64.default_settings (Fin 150) None
                           (fun _ => Some df) "SPY" "S&P 500 ETF" in
  ~ In No_entry shown
  /\ match B64.position_shares B64.default_settings close atr (Fin 150) with
     | Some shares =>
         In (Position shares (B64.stop_loss B64.default_settings close atr))
            shown
         /\ ~ In System_error shown
     | None =>
         In System_error shown
         /\ forall shares stop, ~ In (Position shares stop) shown
     end.
Proof.
  intros df close atr shown.
  assert (Hlen : (250 <= length df)%nat)
    by (apply Nat.leb_le; vm_compute; reflexivity).
  assert (Hbull : trend_of (iloc_last (Raw.column Raw.Close df))
                           (iloc_last (SMA_200 (Raw.calculate_indicators df)))
                  = Bullish)
    by (vm_compute; reflexivity).
  pose proof (@trend_gates_position B64.default_settings (Fin 150) None
                (fun _ => Some df) "SPY"%string "S&P 500 ETF"%string df
                eq_refl Hlen)
    as (_ & _ & _ & _ & Hb & _).
  exact (Hb Hbull).
Defined.

(** ** Scenarios *)

(** Close 100, ATR 2, multiplier 2: the stop is 96 and the risk per share
    4 times the rate; with the default settings and 150 yen per dollar the
    sizer recommends 13 shares, the capital limit being the smaller one. *)
Example sizer_scenario :
  feq (stop_loss default_settings (Fin 100) (Fin 2)) (Fin 96)
  /\ (forall fx : Q,
         feq (risk_per_share_jpy default_settings (Fin 100) (Fin 2) (Fin fx))
             (Fin (4 * fx)))
  /\ raw_shares default_settings (Fin 100) (Fin 2) (Fin 150) = Some 16%Z
  /\ max_buy default_settings (Fin 100) (Fin 150) = Some 13%Z
  /\ position_shares default_settings (Fin 100) (Fin 2) (Fin 150) = Some 13%Z.
Proof.
  split; [reflexivity|]. split; [|repeat split].
  intros fx. unfold risk_per_share_jpy, stop_loss; simpl. ring.
Qed.

(** A series of 100 bars is refused by the length guard. *)
Example short_series_scenario :
  analyse default_settings (Fin 150) None (fun _ => Some (wave_frame 100))
          "NVDA" "NVIDIA Corp"
  = [Data_shortage "NVDA"].
Proof. reflexivity. Qed.

(** The failure messages of the commentary provider are sorted by cause. *)
Example commentary_scenarios :
  commentary (Raised "429 RESOURCE_EXHAUSTED") = Ai_rate_limited
  /\ commentary (Raised "404 model not found") = Ai_not_found
  /\ commentary (Raised "timeout") = Ai_error "timeout"
  /\ commentary (Text "ok") = Ai_comment "ok".
Proof. repeat split. Qed.

(** * Further properties of the program *)

(** ** The sizer on the inputs the page can produce *)

Lemma Qtrunc_comp_nonneg (p q : Q) : 0 <= p -> p == q -> Qtrunc p = Qfloor q.
Proof.
  intros Hp E. rewrite (Qtrunc_nonneg_floor Hp). now rewrite E.
Qed.

Lemma stop_distance (close m a : Q) : close + - (close + - (m * a)) == m * a.
Proof. ring. Qed.

(** A positive stop distance and a positive rate give a positive risk per
    share. *)
Lemma risk_per_share_positive (capital risk mult close atr fx : Q) :
  0 < fx -> 0 < mult * atr ->
  fgt (risk_per_share_jpy (mkSettings (Fin capital) (Fin risk) (Fin mult))
                          (Fin close) (Fin atr) (Fin fx)) (Fin 0) = true.
Proof.
  intros Hf Hd. unfold risk_per_share_jpy, stop_loss.
  cbn [ATR_MULTIPLIER fsub fadd fneg fmul].
  apply fgt_Fin. rewrite stop_distance.
  rewrite <- (Qmult_0_l fx). now apply Qmult_lt_compat_r.
Qed.

(** On such inputs the two truncations of the sizer are floors. *)
Lemma raw_shares_floor (capital risk mult close atr fx : Q) :
  0 <= capital -> 0 <= risk -> 0 < fx -> 0 < mult * atr ->
  raw_shares (mkSettings (Fin capital) (Fin risk) (Fin mult))
             (Fin close) (Fin atr) (Fin fx)
  = Some (Qfloor (capital * risk / (mult * atr * fx))).
Proof.
  intros Hc Hr Hf Hd.
  assert (HR : (close + - (close + - (mult * atr))) * fx == mult * atr * fx)
    by now rewrite stop_distance.
  assert (HR0 : 0 < (close + - (close + - (mult * atr))) * fx).
  { rewrite HR, <- (Qmult_0_l fx). now apply Qmult_lt_compat_r. }
  unfold raw_shares, risk_per_share_jpy, stop_loss, allowable_risk.
  cbn [INITIAL_CAPITAL_JPY RISK_TOLERANCE_PCT ATR_MULTIPLIER
       fsub fadd fneg fmul fdiv].
  rewrite (Qeq_bool_false_of_lt HR0). cbn [int]. f_equal.
  apply Qtrunc_comp_nonneg.
  - apply Qdiv_nonneg; [now apply Qmult_le_0_compat | exact HR0].
  - now rewrite HR.
Qed.

Lemma max_buy_floor (capital close fx : Q) (risk mult : float) :
  0 <= capital -> 0 < close -> 0 < fx ->
  max_buy (mkSettings (Fin capital) risk mult) (Fin close) (Fin fx)
  = Some (Qfloor (capital / (close * fx))).
Proof.
  intros Hc Hp Hf.
  assert (Hpf : 0 < close * fx).
  { rewrite <- (Qmult_0_l fx). now apply Qmult_lt_compat_r. }
  rewrite (max_buy_priced capital risk mult Hpf). f_equal.
  apply Qtrunc_nonneg_floor, Qdiv_nonneg; assumption.
Qed.

(** X2.  The sizer recommends 0 shares, and raises nothing, whenever the
    risk per share is not a positive number: the ATR or the rate is [nan],
    or the product [multiplier * ATR * rate] is zero or negative (a flat
    market, ATR = 0, among them). *)
Theorem no_positive_risk_no_shares :
  (forall cfg close fx, position_shares cfg close NaN fx = Some 0%Z)
  /\ (forall cfg close atr, position_shares cfg close atr NaN = Some 0%Z)
  /\ (forall capital risk mult close atr fx : Q,
         mult * atr * fx <= 0 ->
         position_shares (mkSettings (Fin capital) (Fin risk) (Fin mult))
                         (Fin close) (Fin atr) (Fin fx) = Some 0%Z).
Proof.
  split; [|split].
  - intros cfg close fx. unfold position_shares, risk_per_share_jpy, stop_loss.
    destruct (ATR_MULTIPLIER cfg), close, fx; reflexivity.
  - intros cfg close atr. unfold position_shares, risk_per_share_jpy.
    destruct (fsub close (stop_loss cfg close atr)); reflexivity.
  - intros capital risk mult close atr fx H.
    unfold position_shares, risk_per_share_jpy, stop_loss.
    cbn [ATR_MULTIPLIER fsub fadd fneg fmul].
    rewrite (proj2 (fgt_Fin_false _ 0)); [reflexivity|].
    now rewrite stop_distance.
Qed.

Lemma no_positive_risk_no_shares_witness :
  position_shares default_settings (Fin 100) (Fin 0) (Fin 150) = Some 0%Z.
Proof.
  apply (proj2 (proj2 no_positive_risk_no_shares) 200000 (5 # 100) 2 100 0 150).
  discriminate.
Defined.

(** ** The two long windows: SMA_200 and High_52W *)

Lemma observations_column (field : bar -> Q) (l : frame) :
  observations (column field l) = map field l.
Proof.
  induction l as [|b l IH]; [reflexivity|]. simpl. now rewrite <- IH.
Qed.

Lemma window_column (field : bar -> Q) w i (df : frame) :
  window w i (column field df)
  = column field (skipn (i + 1 - w) (firstn (i + 1) df)).
Proof. unfold window, column. now rewrite firstn_map, skipn_map. Qed.

Lemma length_bar_window w i (df : frame) :
  (w <= i + 1)%nat -> (i < length df)%nat ->
  length (skipn (i + 1 - w) (firstn (i + 1) df)) = w.
Proof. intros Hw Hi. rewrite length_skipn, length_firstn. lia. Qed.

(** A rolling aggregation of a price column from row [w - 1] on: the
    aggregate of the [w] bars that end at the row. *)
Lemma rolling_column_value (field : bar -> Q) w agg (df : frame) i :
  (w <= i + 1)%nat -> (i < length df)%nat ->
  nth_error (rolling w agg (column field df)) i
  = Some (Fin (agg (map field (skipn (i + 1 - w) (firstn (i + 1) df))))).
Proof.
  intros Hw Hi.
  rewrite rolling_full;
    [|apply column_finite | exact Hw | now rewrite length_column].
  now rewrite window_column, observations_column.
Qed.

Lemma fold_max_upper (y : Q) (r : list Q) (x : Q) :
  x = y \/ In x r -> x <= fold_right Qmax y r.
Proof.
  induction r as [|z r IH]; simpl.
  - intros [->|[]]. apply Qle_refl.
  - intros [H|[<-|H]].
    + apply Qle_trans with (fold_right Qmax y r);
        [apply IH; now left | apply Q.le_max_r].
    + apply Q.le_max_l.
    + apply Qle_trans with (fold_right Qmax y r);
        [apply IH; now right | apply Q.le_max_r].
Qed.

Lemma maximum_upper (xs : list Q) (x : Q) : In x xs -> x <= maximum xs.
Proof.
  destruct xs as [|y r]; [contradiction|]. unfold maximum.
  intros [<-|H]; apply fold_max_upper; auto.
Qed.

Lemma maximum_attained (xs : list Q) :
  xs <> [] -> exists x, In x xs /\ maximum xs == x.
Proof.
  destruct xs as [|y r]; [congruence|]. intros _. unfold maximum.
  revert y. induction r as [|z r IH]; intros y; simpl.
  - exists y. split; [now left | reflexivity].
  - destruct (Q.max_dec z (fold_right Qmax y r)) as [E|E].
    + exists z. split; [right; now left | exact E].
    + destruct (IH y) as (x & [<-|Hx] & Ex).
      * exists y. split; [now left | now rewrite E].
      * exists x. split; [right; now right | now rewrite E].
Qed.

Lemma mean_bounds (xs : list Q) (lo hi : Q) :
  xs <> [] ->
  Forall (fun q => lo <= q /\ q <= hi) xs ->
  lo <= mean xs /\ mean xs <= hi.
Proof.
  intros Hne Hall.
  assert (Hn : 0 < inject_Z (Z.of_nat (length xs))).
  { rewrite <- (Zlt_Qlt 0). destruct xs; [congruence | simpl; lia]. }
  assert (Ht : inject_Z (Z.of_nat (length xs)) * lo <= total xs
               /\ total xs <= inject_Z (Z.of_nat (length xs)) * hi).
  { clear Hne Hn. induction Hall as [|x xs [Hlo Hhi] _ [IH1 IH2]].
    - simpl. split; rewrite Qmult_0_l; apply Qle_refl.
    - cbn [length total fold_right]. fold (total xs).
      rewrite Nat2Z.inj_succ, <- Z.add_1_r, inject_Z_plus.
      change (inject_Z 1) with 1. split; lra. }
  unfold mean. split.
  - apply Qle_shift_div_l; [exact Hn|]. rewrite Qmult_comm. apply Ht.
  - apply Qle_shift_div_r; [exact Hn|]. rewrite Qmult_comm. apply Ht.
Qed.



(** X5.  High_52W has no value on the first 249 bars; from the 250th bar
    on it is a High of one of the 250 bars that end at the bar and no High
    of these bars is above it. *)
Theorem high_52w_window (df : frame) (i : nat) :
  (i < length df)%nat ->
  ((i < 249)%nat ->
   nth_error (High_52W (calculate_indicators df)) i = Some NaN)
  /\ ((249 <= i)%nat ->
      let bars := skipn (i - 249) (firstn (i + 1) df) in
      exists h,
        nth_error (High_52W (calculate_indicators df)) i = Some (Fin h)
        /\ length bars = 250%nat
        /\ (forall b, In b bars -> High b <= h)
        /\ (exists b, In b bars /\ h == High b)).
Proof.
  intros Hi. split.
  - intros Hw. cbn [High_52W calculate_indicators].
    apply rolling_short; [lia | now rewrite length_column].
  - intros Hw bars. cbn [High_52W calculate_indicators].
    assert (Hlen : length bars = 250%nat).
    { unfold bars. replace (i - 249)%nat with (i + 1 - 250)%nat by lia.
      apply length_bar_window; [lia | exact Hi]. }
    exists (maximum (map High bars)).
    split; [|split; [exact Hlen | split]].
    + rewrite rolling_column_value by (try exact Hi; lia).
      unfold bars. now replace (i + 1 - 250)%nat with (i - 249)%nat by lia.
    + intros b Hb. apply maximum_upper. now apply in_map.
    + destruct (@maximum_attained (map High bars)) as (x & Hx & Ex).
      * intros E. apply (f_equal (@length Q)) in E.
        rewrite length_map, Hlen in E. discriminate E.
      * apply in_map_iff in Hx. destruct Hx as (b & <- & Hb).
        now exists b.
Qed.

Lemma high_52w_window_witness :
  exists h,
    nth_error (High_52W (calculate_indicators (wave_frame 250))) 249
    = Some (Fin h)
    /\ forall b, In b (skipn (249 - 249) (firstn (249 + 1) (wave_frame 250))) ->
                 High b <= h.
Proof.
  destruct (proj2 (@high_52w_window (wave_frame 250) 249
                     (proj1 (Nat.ltb_lt 249 (length (wave_frame 250))) eq_refl))
                  (proj1 (Nat.leb_le 249 249) eq_refl))
    as (h & Hv & _ & Hup & _).
  exists h. split; assumption.
Defined.

(** ** The last bar against its 52-week high *)

Lemma last_In (A : Type) (l : list A) (d : A) : l <> [] -> In (last l d) l.
Proof.
  induction l as [|x l IH]; [congruence|]. intros _.
  destruct l as [|y l]; [now left|].
  right. apply IH. discriminate.
Qed.

Lemma last_skipn (A : Type) (k : nat) (l : list A) (d : A) :
  (k < length l)%nat -> last (skipn k l) d = last l d.
Proof.
  revert l; induction k as [|k IH]; intros l Hk; [reflexivity|].
  destruct l as [|x l]; [simpl in Hk; lia|].
  simpl in Hk. cbn [skipn]. rewrite IH by lia.
  destruct l; [simpl in Hk; lia | reflexivity].
Qed.

Lemma iloc_last_column_value (field : bar -> Q) (df : frame) (d : bar) :
  df <> [] -> iloc_last (column field df) = Fin (field (last df d)).
Proof.
  unfold iloc_last, column.
  induction df as [|b df IH]; [congruence|]. intros _.
  destruct df as [|b' df]; [reflexivity|].
  change (last (map (fun b0 => Fin (field b0)) (b :: b' :: df)) NaN)
    with (last (map (fun b0 => Fin (field b0)) (b' :: df)) NaN).
  rewrite IH by discriminate. reflexivity.
Qed.

(** The 52-week high of the last bar of a frame that passes the guard. *)
Lemma iloc_last_high_52w (df : frame) :
  (250 <= length df)%nat ->
  iloc_last (High_52W (calculate_indicators df))
  = Fin (maximum (map High (skipn (length df - 250) df))).
Proof.
  intros Hlen. cbn [High_52W calculate_indicators].
  apply (@iloc_last_of_nth_error _ (length df - 1)%nat).
  - rewrite length_rolling, length_column. lia.
  - rewrite rolling_column_value by lia.
    replace (length df - 1 + 1)%nat with (length df) by lia.
    now rewrite firstn_all.
Qed.

(** X6.  When the last bar of a series of at least 250 bars closes at a
    positive price that is not above its own High, the close is not above
    High_52W and the distance to the high shown is not negative: a negative
    distance needs a bar that closes above its High. *)
Theorem distance_to_high_nonneg (df : frame) :
  (250 <= length df)%nat ->
  0 < Close (last df (mkBar 0 0 0 0)) ->
  Close (last df (mkBar 0 0 0 0)) <= High (last df (mkBar 0 0 0 0)) ->
  exists c h d,
    iloc_last (column Close df) = Fin c
    /\ iloc_last (High_52W (calculate_indicators df)) = Fin h
    /\ c <= h
    /\ dist_to_high_pct (Fin c) (Fin h) = Fin d
    /\ 0 <= d.
Proof.
  intros Hlen Hpos Hwf.
  assert (Hne : df <> []) by (intros ->; simpl in Hlen; lia).
  set (b := last df (mkBar 0 0 0 0)) in *.
  exists (Close b), (maximum (map High (skipn (length df - 250) df))),
    ((maximum (map High (skipn (length df - 250) df)) + - Close b)
     / Close b * 100).
  assert (Hh : Close b <= maximum (map High (skipn (length df - 250) df))).
  { apply Qle_trans with (High b); [exact Hwf|].
    apply maximum_upper, in_map.
    unfold b. rewrite <- (@last_skipn _ (length df - 250) df) by lia.
    apply last_In. intros E. apply (f_equal (@length bar)) in E.
    rewrite length_skipn in E. simpl in E. lia. }
  split; [now apply iloc_last_column_value|].
  split; [now apply iloc_last_high_52w|].
  split; [exact Hh|]. split.
  - unfold dist_to_high_pct. cbn [fsub fadd fneg fdiv fmul].
    now rewrite (Qeq_bool_false_of_lt Hpos).
  - apply Qmult_le_0_compat; [|discriminate].
    apply Qdiv_nonneg; [lra | exact Hpos].
Qed.

Lemma distance_to_high_nonneg_witness :
  exists c h d,
    iloc_last (column Close (wave_frame 250)) = Fin c
    /\ iloc_last (High_52W (calculate_indicators (wave_frame 250))) = Fin h
    /\ c <= h
    /\ dist_to_high_pct (Fin c) (Fin h) = Fin d
    /\ 0 <= d.
Proof.
  apply (@distance_to_high_nonneg (wave_frame 250)).
  - apply Nat.leb_le. vm_compute. reflexivity.
  - vm_compute. reflexivity.
  - vm_compute. discriminate.
Defined.

(** ** True range row by row *)

Lemma nanmax_Fin (a b : Q) :
  exists q, nanmax (Fin a) (Fin b) = Fin q
            /\ a <= q /\ b <= q /\ (q = a \/ q = b).
Proof.
  unfold nanmax, fle.
  destruct (Qcompare_spec b a) as [E|E|E].
  - exists a. repeat split; auto; [apply Qle_refl | rewrite E; apply Qle_refl].
  - exists a. repeat split; auto; [apply Qle_refl | now apply Qlt_le_weak].
  - exists b. repeat split; auto; [now apply Qlt_le_weak | apply Qle_refl].
Qed.

(** The row maximum of a range and two distances to a prior close. *)
Lemma nanmax_three (a b c : Q) :
  exists q, nanmax (nanmax (Fin a) (Fin b)) (Fin c) = Fin q
            /\ a <= q /\ b <= q /\ c <= q /\ (q = a \/ q = b \/ q = c).
Proof.
  destruct (nanmax_Fin a b) as (q1 & -> & Ha & Hb & H1).
  destruct (nanmax_Fin q1 c) as (q & -> & Hq & Hc & H2).
  exists q. split; [reflexivity|].
  split; [now apply Qle_trans with q1|].
  split; [now apply Qle_trans with q1|].
  split; [exact Hc|].
  destruct H2 as [->| ->]; [destruct H1 as [->| ->]|]; auto.
Qed.

Section Rows.

Local Open Scope nat_scope.

Lemma nth_error_row_max (a b c : series) i x y z :
  nth_error a i = Some x -> nth_error b i = Some y -> nth_error c i = Some z ->
  nth_error (row_max a b c) i = Some (nanmax (nanmax x y) z).
Proof.
  revert b c i; induction a as [|x' a IH]; intros [|y' b] [|z' c] [|i]; simpl;
    try discriminate.
  - now intros [= ->] [= ->] [= ->].
  - apply IH.
Qed.

Lemma nth_error_column (field : bar -> Q) (df : frame) i b :
  nth_error df i = Some b ->
  nth_error (column field df) i = Some (Fin (field b)).
Proof. intros H. unfold column. now rewrite nth_error_map, H. Qed.

Lemma nth_error_removelast (s : series) i :
  S i < length s -> nth_error (removelast s) i = nth_error s i.
Proof.
  revert i; induction s as [|x s IH]; intros i Hi; [simpl in Hi; lia|].
  destruct s as [|y s]; [simpl in Hi; lia|].
  change (removelast (x :: y :: s)) with (x :: removelast (y :: s)).
  destruct i as [|i]; [reflexivity|].
  cbn [nth_error]. apply IH. simpl in *. lia.
Qed.

(** Row 0 of a shifted column is [nan], row [i + 1] holds row [i]. *)
Lemma nth_error_shift_0 (s : series) :
  s <> [] -> nth_error (shift s) 0 = Some NaN.
Proof. destruct s; [congruence | reflexivity]. Qed.

Lemma nth_error_shift_S (s : series) i :
  S i < length s -> nth_error (shift s) (S i) = nth_error s i.
Proof.
  intros Hi. destruct s as [|x s]; [simpl in Hi; lia|].
  unfold shift. cbn [nth_error]. now apply nth_error_removelast.
Qed.

(** The true range of a bar in terms of the value [p] that the shifted
    close column holds on its row. *)
Lemma nth_error_true_range (df : frame) i b p :
  nth_error df i = Some b ->
  nth_error (shift (column Close df)) i = Some p ->
  nth_error (true_range df) i
  = Some (nanmax (nanmax (Fin (High b - Low b))
                         (fabs (fsub (Fin (High b)) p)))
                 (fabs (fsub (Fin (Low b)) p))).
Proof.
  intros Hb Hp. unfold true_range, high_low, high_close, low_close.
  change (Fin (High b - Low b)) with (fsub (Fin (High b)) (Fin (Low b))).
  apply nth_error_row_max.
  - apply nth_error_zip_with; now apply nth_error_column.
  - rewrite nth_error_map,
      (nth_error_zip_with fsub _ _ _ (nth_error_column High _ _ Hb) Hp).
    reflexivity.
  - rewrite nth_error_map,
      (nth_error_zip_with fsub _ _ _ (nth_error_column Low _ _ Hb) Hp).
    reflexivity.
Qed.

End Rows.

(** X7.  On every bar after the first the true range is the largest of
    [High - Low], [|High - prior close|] and [|Low - prior close|], the
    prior close being the close of the bar just before: it is one of the
    three, none of them is above it, and it is never negative. *)
Theorem true_range_uses_prior_close (df : frame) (i : nat) (prev b : bar) :
  nth_error df i = Some prev ->
  nth_error df (S i) = Some b ->
  exists q,
    nth_error (true_range df) (S i) = Some (Fin q)
    /\ High b - Low b <= q
    /\ Qabs (High b - Close prev) <= q
    /\ Qabs (Low b - Close prev) <= q
    /\ (q = High b - Low b
        \/ q = Qabs (High b - Close prev)
        \/ q = Qabs (Low b - Close prev))
    /\ 0 <= q.
Proof.
  intros Hprev Hb.
  assert (Hi : (S i < length (column Close df))%nat).
  { rewrite length_column. apply nth_error_Some. congruence. }
  pose proof (nth_error_shift_S _ Hi) as Hs.
  rewrite (nth_error_column Close _ _ Hprev) in Hs.
  rewrite (nth_error_true_range _ _ Hb Hs).
  cbn [fsub fadd fneg fabs].
  destruct (nanmax_three (High b - Low b)
                         (Qabs (High b + - Close prev))
                         (Qabs (Low b + - Close prev)))
    as (q & -> & H1 & H2 & H3 & H4).
  exists q. split; [reflexivity|].
  repeat (split; [assumption|]).
  apply Qle_trans with (Qabs (High b + - Close prev));
    [apply Qabs_nonneg | exact H2].
Qed.

Lemma true_range_uses_prior_close_witness :
  exists q,
    nth_error (true_range (wave_frame 5)) 3 = Some (Fin q)
    /\ Qabs (99 - 102) <= q.
Proof.
  destruct (@true_range_uses_prior_close (wave_frame 5) 2
              (mkBar 102 (102 + 1) (102 - 1) 102)
              (mkBar 100 (100 + 1) (100 - 1) 100) eq_refl eq_refl)
    as (q & Hq & _ & _ & Hl & _).
  exists q. split; [exact Hq | exact Hl].
Defined.

(** ** The stop below the close *)

Lemma true_range_later_nonneg (df : frame) (j : nat) (x : float) :
  (1 <= j)%nat -> nth_error (true_range df) j = Some x ->
  exists q, x = Fin q /\ 0 <= q.
Proof.
  intros Hj Hx. destruct j as [|i]; [lia|].
  assert (Hlen : (S i < length df)%nat).
  { rewrite <- length_true_range. apply nth_error_Some. congruence. }
  destruct (nth_error df i) as [prev|] eqn:Hprev;
    [|apply nth_error_None in Hprev; lia].
  destruct (nth_error df (S i)) as [b|] eqn:Hb;
    [|apply nth_error_None in Hb; lia].
  assert (Hi : (S i < length (column Close df))%nat)
    by now rewrite length_column.
  pose proof (nth_error_shift_S _ Hi) as Hs.
  rewrite (nth_error_column Close _ _ Hprev) in Hs.
  rewrite (nth_error_true_range _ _ Hb Hs) in Hx.
  cbn [fsub fadd fneg fabs] in Hx.
  destruct (nanmax_three (High b - Low b)
                         (Qabs (High b + - Close prev))
                         (Qabs (Low b + - Close prev)))
    as (q & E & _ & H2 & _).
  rewrite E in Hx. injection Hx as <-.
  exists q. split; [reflexivity|].
  apply Qle_trans with (Qabs (High b + - Close prev));
    [apply Qabs_nonneg | exact H2].
Qed.

Lemma In_skipn_nth_error (k : nat) (s : series) (x : float) :
  In x (skipn k s) -> exists j, (k <= j)%nat /\ nth_error s j = Some x.
Proof.
  intros H. apply In_nth_error in H. destruct H as [n Hn].
  rewrite nth_error_skipn in Hn. exists (k + n)%nat. split; [lia | exact Hn].
Qed.

(** The ATR of the last bar of a frame of at least 15 bars averages true
    ranges of bars that all have a prior close, and is not negative. *)
Lemma atr_last_nonneg (df : frame) :
  (15 <= length df)%nat ->
  exists a, iloc_last (ATR (calculate_indicators df)) = Fin a /\ 0 <= a.
Proof.
  intros Hlen. cbn [ATR calculate_indicators].
  pose proof (length_true_range df) as Hl.
  exists (mean (observations (window 14 (length df - 1) (true_range df)))).
  split.
  - apply (@iloc_last_of_nth_error _ (length df - 1)%nat).
    + rewrite length_rolling, Hl. lia.
    + apply rolling_full; [apply true_range_finite | lia | lia].
  - apply mean_nonneg, Forall_observations, Forall_forall.
    intros x Hx q ->. unfold window in Hx.
    replace (length df - 1 + 1)%nat with (length (true_range df)) in Hx by lia.
    rewrite firstn_all in Hx.
    apply In_skipn_nth_error in Hx. destruct Hx as (j & Hj & Hx).
    destruct (@true_range_later_nonneg df j (Fin q)) as (q' & [= <-] & Hq);
      [lia | exact Hx | exact Hq].
Qed.

(** X8.  For every series of at least 15 bars, whatever its prices, the
    ATR of the last bar is not negative; so with a multiplier that is not
    negative the stop-loss price [close - multiplier * ATR] is never above
    the close, and with a rate that is not negative the risk per share is
    not negative either. *)
Theorem stop_loss_not_above_close (capital risk mult : Q) (df : frame) :
  (15 <= length df)%nat ->
  0 <= mult ->
  let cfg := mkSettings (Fin capital) (Fin risk) (Fin mult) in
  exists c a s,
    iloc_last (column Close df) = Fin c
    /\ iloc_last (ATR (calculate_indicators df)) = Fin a
    /\ 0 <= a
    /\ stop_loss cfg (Fin c) (Fin a) = Fin s
    /\ s == c - mult * a
    /\ s <= c
    /\ forall fx : Q, 0 <= fx ->
         exists r, risk_per_share_jpy cfg (Fin c) (Fin a) (Fin fx) = Fin r
                   /\ 0 <= r.
Proof.
  intros Hlen Hm cfg.
  destruct (@iloc_last_column Close df) as [c Hc];
    [intros ->; simpl in Hlen; lia|].
  destruct (atr_last_nonneg df Hlen) as (a & Ha & Ha0).
  assert (Hma : 0 <= mult * a) by now apply Qmult_le_0_compat.
  exists c, a, (c + - (mult * a)).
  split; [exact Hc|]. split; [exact Ha|]. split; [exact Ha0|].
  split; [reflexivity|]. split; [reflexivity|]. split; [lra|].
  intros fx Hfx. eexists. split; [reflexivity|].
  apply Qmult_le_0_compat; [rewrite stop_distance; exact Hma | exact Hfx].
Qed.

Lemma stop_loss_not_above_close_witness :
  exists c a s,
    iloc_last (column Close (wave_frame 20)) = Fin c
    /\ iloc_last (ATR (calculate_indicators (wave_frame 20))) = Fin a
    /\ 0 <= a
    /\ stop_loss default_settings (Fin c) (Fin a) = Fin s
    /\ s <= c.
Proof.
  destruct (@stop_loss_not_above_close 200000 (5 # 100) 2 (wave_frame 20))
    as (c & a & s & Hc & Ha & Ha0 & Hs & _ & Hle & _).
  - apply Nat.leb_le. vm_compute. reflexivity.
  - discriminate.
  - exists c, a, s. auto.
Defined.

(** ** RSI as the share of gains *)




(** ** Later bars never change earlier rows *)

Section Prefix.

Local Open Scope nat_scope.

Lemma zip_with_app f (a a' b b' : series) :
  length a = length b ->
  zip_with f (a ++ a') (b ++ b') = zip_with f a b ++ zip_with f a' b'.
Proof.
  revert b; induction a as [|x a IH]; intros [|y b] H; try discriminate H.
  - reflexivity.
  - simpl. f_equal. apply IH. now injection H.
Qed.

Lemma row_max_app (a a' b b' c c' : series) :
  length a = length b -> length a = length c ->
  row_max (a ++ a') (b ++ b') (c ++ c')
  = row_max a b c ++ row_max a' b' c'.
Proof.
  revert b c; induction a as [|x a IH]; intros [|y b] [|z c] Hb Hc;
    try discriminate Hb; try discriminate Hc.
  - reflexivity.
  - simpl. f_equal. apply IH; [now injection Hb | now injection Hc].
Qed.

Lemma shift_app (s t : series) :
  exists t', shift (s ++ t) = shift s ++ t' /\ length t' = length t.
Proof.
  destruct t as [|y t].
  { exists []. now rewrite !app_nil_r. }
  destruct s as [|x s].
  { exists (shift (y :: t)). split; [reflexivity | apply length_shift]. }
  exists (last (x :: s) NaN :: removelast (y :: t)). split.
  - unfold shift. cbn [app].
    change (x :: s ++ y :: t) with ((x :: s) ++ y :: t).
    rewrite removelast_app by discriminate.
    rewrite (app_removelast_last NaN (l := x :: s)) at 1 by discriminate.
    cbn [app]. rewrite <- app_assoc. reflexivity.
  - pose proof (length_shift (y :: t)) as H. unfold shift in H.
    cbn [length] in *. lia.
Qed.

Lemma window_app w i (s t : series) :
  i < length s -> window w i (s ++ t) = window w i s.
Proof.
  intros Hi. unfold window. rewrite firstn_app.
  replace (i + 1 - length s) with 0 by lia.
  now rewrite firstn_O, app_nil_r.
Qed.

Lemma rolling_app w agg (s t : series) :
  exists t', rolling w agg (s ++ t) = rolling w agg s ++ t'.
Proof.
  unfold rolling. rewrite length_app, seq_app, map_app.
  eexists. f_equal.
  apply map_ext_in. intros i Hi. apply in_seq in Hi.
  rewrite window_app by lia. reflexivity.
Qed.

Lemma column_app (field : bar -> Q) (df more : frame) :
  column field (df ++ more) = column field df ++ column field more.
Proof. apply map_app. Qed.

Lemma firstn_prefix (s t : series) : firstn (length s) (s ++ t) = s.
Proof.
  rewrite firstn_app, Nat.sub_diag, firstn_O, app_nil_r. apply firstn_all.
Qed.

Variables df more : frame.

Lemma delta_app : exists t, delta (df ++ more) = delta df ++ t.
Proof.
  unfold delta, diff. rewrite column_app.
  destruct (shift_app (column Close df) (column Close more)) as (t' & -> & _).
  rewrite zip_with_app by now rewrite length_shift.
  now eexists.
Qed.

Lemma gain_app : exists t, gain (df ++ more) = gain df ++ t.
Proof.
  unfold gain. destruct delta_app as [t ->].
  unfold where_. rewrite map_app. apply rolling_app.
Qed.

Lemma loss_app : exists t, loss (df ++ more) = loss df ++ t.
Proof.
  unfold loss. destruct delta_app as [t ->].
  unfold where_. rewrite !map_app. apply rolling_app.
Qed.

Lemma true_range_app :
  exists t, true_range (df ++ more) = true_range df ++ t.
Proof.
  unfold true_range, high_low, high_close, low_close.
  rewrite !column_app.
  destruct (shift_app (column Close df) (column Close more)) as (t' & -> & _).
  rewrite !zip_with_app, !map_app
    by (rewrite ?length_shift, !length_column; reflexivity).
  rewrite row_max_app
    by (rewrite ?length_map, !length_zip_with, ?length_shift, !length_column;
        lia).
  now eexists.
Qed.

End Prefix.

(** X10.  The indicators have no look-ahead: appending later bars to a
    series leaves SMA_200, High_52W, RSI and ATR of every earlier bar
    unchanged. *)
Theorem indicators_ignore_later_bars (df more : frame) :
  let before := calculate_indicators df in
  let after := calculate_indicators (df ++ more) in
  firstn (length df) (SMA_200 after) = SMA_200 before
  /\ firstn (length df) (High_52W after) = High_52W before
  /\ firstn (length df) (RSI after) = RSI before
  /\ firstn (length df) (ATR after) = ATR before.
Proof.
  cbn [SMA_200 High_52W RSI ATR calculate_indicators].
  assert (Hroll : forall w agg (s t : series),
             length s = length df ->
             firstn (length df) (rolling w agg (s ++ t)) = rolling w agg s).
  { intros w agg s t Hs.
    destruct (rolling_app w agg s t) as [t' ->].
    rewrite <- Hs, <- (length_rolling w agg s). apply firstn_prefix. }
  split; [|split; [|split]].
  - rewrite column_app. apply Hroll, length_column.
  - rewrite column_app. apply Hroll, length_column.
  - unfold rs.
    destruct (gain_app df more) as [tg ->].
    destruct (loss_app df more) as [tl ->].
    rewrite zip_with_app, map_app.
    + rewrite <- (length_RSI df) at 1. cbn [RSI calculate_indicators].
      unfold rs. apply firstn_prefix.
    + unfold gain, loss.
      now rewrite !length_rolling, length_gain_input, length_loss_input.
  - destruct (true_range_app df more) as [t ->].
    apply Hroll, length_true_range.
Qed.

(** X11.  [calculate_indicators] adds four columns of exactly as many rows
    as the frame has bars, so the last row of every column is the row of
    the last bar. *)
Theorem indicator_columns_aligned (df : frame) :
  length (SMA_200 (calculate_indicators df)) = length df
  /\ length (High_52W (calculate_indicators df)) = length df
  /\ length (RSI (calculate_indicators df)) = length df
  /\ length (ATR (calculate_indicators df)) = length df.
Proof.
  split; [|split; [|split]].
  - cbn [SMA_200 calculate_indicators]. now rewrite length_rolling, length_column.
  - cbn [High_52W calculate_indicators]. now rewrite length_rolling, length_column.
  - apply length_RSI.
  - cbn [ATR calculate_indicators]. now rewrite length_rolling, length_true_range.
Qed.

(** ** The commentary block *)

Section Substrings.

Local Open Scope string_scope.

Lemma prefix_append (s post : string) : prefix s (s ++ post) = true.
Proof.
  apply prefix_correct.
  induction s as [|a s IH]; simpl; [now destruct post|]. now rewrite IH.
Qed.

Lemma prefix_split (s hay : string) :
  prefix s hay = true -> exists post, hay = s ++ post.
Proof.
  rewrite prefix_correct. revert hay.
  induction s as [|a s IH]; intros hay H; [now exists hay|].
  destruct hay as [|b hay]; [discriminate H|].
  simpl in H. injection H as -> H.
  destruct (IH _ H) as [post ->]. now exists post.
Qed.

Lemma index_0_cons (needle : string) (b : Ascii.ascii) (hay : string) :
  index 0 needle (String b hay)
  = if prefix needle (String b hay) then Some 0%nat
    else match index 0 needle hay with
         | Some n => Some (S n)
         | None => None
         end.
Proof. reflexivity. Qed.

(** [needle in hay] of Python, for a needle that is not empty. *)
Lemma contains_iff (needle hay : string) :
  needle <> "" ->
  contains needle hay = true <-> exists pre post, hay = pre ++ needle ++ post.
Proof.
  intros Hne. unfold contains. split.
  - induction hay as [|b hay IH].
    + destruct needle; [congruence | discriminate].
    + rewrite index_0_cons.
      destruct (prefix needle (String b hay)) eqn:P.
      * intros _. destruct (prefix_split _ _ P) as [post E].
        exists "", post. exact E.
      * destruct (index 0 needle hay); [|discriminate].
        intros _. destruct IH as (pre & post & ->); [reflexivity|].
        now exists (String b pre), post.
  - intros (pre & post & ->).
    induction pre as [|b pre IH].
    + cbn [append].
      destruct (needle ++ post) eqn:E.
      * destruct needle; [congruence | simpl in E; discriminate E].
      * rewrite index_0_cons, <- E, prefix_append. reflexivity.
    + cbn [append]. rewrite index_0_cons.
      destruct (prefix needle (String b (pre ++ needle ++ post)));
        [reflexivity|].
      destruct (index 0 needle (pre ++ needle ++ post)); [reflexivity|].
      exact IH.
Qed.

End Substrings.

(** X13.  A failure of the commentary provider is sorted by the text of
    its message: rate-limited exactly when the message contains ["429"] or
    ["RESOURCE_EXHAUSTED"] (even if it also contains ["404"]); not-found
    exactly when it contains ["404"] and neither of those; otherwise the
    message itself is shown. *)
Theorem commentary_sorted_by_cause (msg : string) :
  let has := fun needle : string =>
               exists pre post : string, msg = (pre ++ needle ++ post)%string in
  (commentary (Raised msg) = Ai_rate_limited
   <-> has "429"%string \/ has "RESOURCE_EXHAUSTED"%string)
  /\ (commentary (Raised msg) = Ai_not_found
      <-> has "404"%string
          /\ ~ has "429"%string /\ ~ has "RESOURCE_EXHAUSTED"%string)
  /\ (commentary (Raised msg) = Ai_error msg
      <-> ~ has "429"%string /\ ~ has "RESOURCE_EXHAUSTED"%string
          /\ ~ has "404"%string).
Proof.
  intros has.
  assert (H429 : contains "429" msg = true <-> has "429"%string)
    by (apply contains_iff; discriminate).
  assert (HRE : contains "RESOURCE_EXHAUSTED" msg = true
                <-> has "RESOURCE_EXHAUSTED"%string)
    by (apply contains_iff; discriminate).
  assert (H404 : contains "404" msg = true <-> has "404"%string)
    by (apply contains_iff; discriminate).
  rewrite <- H429, <- HRE, <- H404. clear H429 HRE H404.
  unfold commentary.
  destruct (contains "429" msg), (contains "RESOURCE_EXHAUSTED" msg),
    (contains "404" msg); cbn [orb];
    repeat split; intros; try discriminate; try reflexivity;
    intuition discriminate.
Qed.


(** X14.  The commentary is an annotation at the end of the column: with
    a provider configured, a column is the column drawn without provider
    followed by at most one commentary widget, whatever the provider
    answers or raises; and the provider is asked exactly when the column
    shows a position. *)
Theorem commentary_only_appends
        (cfg : settings) (usd_jpy : float) (ask : string -> reply)
        (download : string -> option frame) (ticker name : string) :
  let plain := analyse cfg usd_jpy None download ticker name in
  let shown := analyse cfg usd_jpy (Some ask) download ticker name in
  ((exists shares stop, In (Position shares stop) plain)
   -> shown = plain ++ [commentary (ask name)])
  /\ (~ (exists shares stop, In (Position shares stop) plain)
      -> shown = plain).
Proof.
  intros plain shown. unfold plain, shown, analyse.
  destruct (download ticker) as [df|].
  2:{ split; [intros (s & st & [H|[]]); discriminate H | reflexivity]. }
  destruct ((length df =? 0)%nat || (length df <? 250)%nat).
  { split; [intros (s & st & [H|[]]); discriminate H | reflexivity]. }
  unfold position_block.
  destruct (is_bull _ _).
  - destruct (position_shares _ _ _ _) as [shares|].
    + split; [reflexivity|].
      intros H. exfalso. apply H. eexists _, _. simpl. eauto 6.
    + split; [|reflexivity].
      intros (s & st & H). simpl in H.
      destruct H as [H|[H|[H|[H|[H|[]]]]]]; try discriminate H.
      now apply (proj2 (opportunity_widget_not_position _ _)) in H.
  - split; [|reflexivity].
    intros (s & st & H). simpl in H.
    destruct H as [H|[H|[H|[H|[H|[]]]]]]; try discriminate H.
    now apply (proj2 (opportunity_widget_not_position _ _)) in H.
Qed.

(** X15.  When the download of a ticker raises, its column shows the
    system error and nothing else, and the columns of the tickers before
    and after it are drawn as without it. *)
Theorem download_failure_skips_ticker
        (cfg : settings) (usd_jpy : float) (client : option (string -> reply))
        (download : string -> option frame)
        (before after : list (string * string)) (ticker name : string) :
  download ticker = None ->
  analyse cfg usd_jpy client download ticker name = [System_error]
  /\ run cfg usd_jpy client download (before ++ (ticker, name) :: after)
     = run cfg usd_jpy client download before
       ++ (ticker, [System_error])
       :: run cfg usd_jpy client download after.
Proof.
  intros Hd.
  assert (Ha : analyse cfg usd_jpy client download ticker name = [System_error])
    by (unfold analyse; now rewrite Hd).
  split; [exact Ha|].
  rewrite run_app. f_equal.
  change (run cfg usd_jpy client download ((ticker, name) :: after))
    with ((ticker, analyse cfg usd_jpy client download ticker name)
          :: run cfg usd_jpy client download after).
  now rewrite Ha.
Qed.

Lemma download_failure_skips_ticker_witness :
  let download := fun t : string =>
                    if String.eqb t "TSLA" then None
                    else Some (flat_frame 100 5) in
  run default_settings (Fin 150) None download TARGETS
  = run default_settings (Fin 150) None download [("NVDA", "NVIDIA Corp")%string]
    ++ ("TSLA"%string, [System_error])
    :: run default_settings (Fin 150) None download [("SPY", "S&P 500 ETF")%string].
Proof.
  intros download.
  apply (proj2 (@download_failure_skips_ticker
                  default_settings (Fin 150) None download
                  [("NVDA", "NVIDIA Corp")%string]
                  [("SPY", "S&P 500 ETF")%string]
                  "TSLA"%string "Tesla Inc"%string eq_refl)).
Defined.



(** ** The conversion rate *)

(** X17.  [get_usd_jpy_rate] returns 150 when the request raises or the
    history is empty, and otherwise the last close of the history as it
    is, whatever it is, [nan] included; so the rate is a positive number
    whenever every close the provider returns is one. *)
Theorem usd_jpy_rate_positive (history : option series) :
  (history = None \/ history = Some [] -> get_usd_jpy_rate history = Fin 150)
  /\ (forall data x, history = Some (data ++ [x]) ->
        get_usd_jpy_rate history = x)
  /\ ((forall data, history = Some data ->
         Forall (fin_sat (fun q => 0 < q)) data) ->
      fin_sat (fun q => 0 < q) (get_usd_jpy_rate history)).
Proof.
  split; [|split].
  - intros [-> | ->]; reflexivity.
  - intros data x ->. unfold get_usd_jpy_rate, iloc_last.
    destruct (data ++ [x]) eqn:E;
      [now destruct data | rewrite <- E; apply last_last].
  - intros Hall.
    destruct history as [[|y data]|]; try reflexivity.
    unfold get_usd_jpy_rate.
    specialize (Hall _ eq_refl). rewrite Forall_forall in Hall.
    apply Hall. apply (@last_In float). discriminate.
Qed.

Lemma usd_jpy_rate_positive_witness :
  get_usd_jpy_rate (Some ([Fin 149] ++ [NaN])) = NaN
  /\ fin_sat (fun q => 0 < q) (get_usd_jpy_rate (Some [Fin 149; Fin 151])).
Proof.
  split.
  - apply (proj1 (proj2 (@usd_jpy_rate_positive (Some ([Fin 149] ++ [NaN]))))
             [Fin 149] NaN eq_refl).
  - apply (proj2 (proj2 (@usd_jpy_rate_positive (Some [Fin 149; Fin 151])))).
    intros data [= <-]. repeat constructor.
Defined.

(** An undefined rate is not replaced by the fallback. *)
Example usd_jpy_rate_nan :
  get_usd_jpy_rate (Some [Fin 149; NaN]) = NaN.
Proof. reflexivity. Qed.

(** ** A ticker whose price never moves *)

Section FlatTicker.

Variable c : Q.
Variable n : nat.

Lemma flat_delta : Forall (nan_or (fun q => q == 0)) (delta (flat_frame n c)).
Proof.
  unfold delta, diff.
  eapply Forall_zip_with;
    [|apply (@flat_column c n Close eq_refl) | apply (flat_shift_close c n)].
  intros x y -> [-> | ->]; cbn [nan_or fsub fadd fneg]; [|exact I].
  apply Qplus_opp_r.
Qed.

Lemma flat_gains :
  Forall (fin_sat (fun q => q == 0))
         (where_ (fun d => fgt d (Fin 0)) (Fin 0) (delta (flat_frame n c))).
Proof.
  unfold where_. apply Forall_map.
  eapply Forall_impl; [|apply flat_delta].
  intros [d| | |] H; simpl in H; try contradiction.
  - destruct (fgt (Fin d) (Fin 0)); [exact H | reflexivity].
  - reflexivity.
Qed.

Lemma flat_losses :
  Forall (fin_sat (fun q => q == 0))
         (map fneg (where_ (fun d => flt d (Fin 0)) (Fin 0)
                           (delta (flat_frame n c)))).
Proof.
  unfold where_. rewrite map_map. apply Forall_map.
  eapply Forall_impl; [|apply flat_delta].
  intros [d| | |] H; simpl in H; try contradiction.
  - destruct (flt (Fin d) (Fin 0)); cbn [fneg fin_sat];
      [now rewrite H | reflexivity].
  - reflexivity.
Qed.

Lemma length_flat_frame : length (flat_frame n c) = n.
Proof. apply repeat_length. Qed.

Lemma last_flat_frame (d : bar) :
  (0 < n)%nat -> last (flat_frame n c) d = mkBar c c c c.
Proof.
  intros Hn.
  assert (Hin : In (last (flat_frame n c) d) (flat_frame n c)).
  { apply last_In. intros E. apply (f_equal (@length bar)) in E.
    rewrite length_flat_frame in E. simpl in E. lia. }
  now apply repeat_spec in Hin.
Qed.

(** The RSI of the last bar of a flat series of at least 14 bars. *)
Lemma flat_rsi_last :
  (14 <= n)%nat ->
  iloc_last (RSI (calculate_indicators (flat_frame n c))) = NaN.
Proof.
  intros Hn.
  destruct (@gain_defined (flat_frame n c) (n - 1)) as [g Hg];
    [lia | rewrite length_flat_frame; lia |].
  destruct (@loss_defined (flat_frame n c) (n - 1)) as [l Hl];
    [lia | rewrite length_flat_frame; lia |].
  assert (Eg : g == 0).
  { destruct (@rolling_cases (fun q => q == 0) _ _ _ _ _
                (fin_sat_values flat_gains) Hg)
      as [E | (obs & E & Hobs & _)]; [discriminate|].
    injection E as ->. now apply mean_zero. }
  assert (El : l == 0).
  { destruct (@rolling_cases (fun q => q == 0) _ _ _ _ _
                (fin_sat_values flat_losses) Hl)
      as [E | (obs & E & Hobs & _)]; [discriminate|].
    injection E as ->. now apply mean_zero. }
  apply (@iloc_last_of_nth_error _ (n - 1)%nat).
  - rewrite length_RSI, length_flat_frame. lia.
  - rewrite (nth_error_RSI _ _ Hg Hl). f_equal.
    destruct (rsi_of_averages (gain_nonneg _ _ Hg) (loss_nonneg _ _ Hl))
      as [(_ & _ & E) | [(Pg & _) | (Pl & _)]]; [exact E | |].
    + rewrite Eg in Pg. discriminate Pg.
    + rewrite El in Pl. discriminate Pl.
Qed.

(** SMA_200 and High_52W of the last bar of a flat series are the price. *)
Lemma flat_long_windows :
  (250 <= n)%nat ->
  exists s h,
    iloc_last (SMA_200 (calculate_indicators (flat_frame n c))) = Fin s
    /\ s == c
    /\ iloc_last (High_52W (calculate_indicators (flat_frame n c))) = Fin h
    /\ h == c.
Proof.
  intros Hn.
  pose proof length_flat_frame as Hl.
  set (bars200 := skipn (n - 1 + 1 - 200) (firstn (n - 1 + 1) (flat_frame n c))).
  set (bars250 := skipn (n - 1 + 1 - 250) (firstn (n - 1 + 1) (flat_frame n c))).
  assert (Hall : forall k m, Forall (fun b => b = mkBar c c c c)
                               (skipn k (firstn m (flat_frame n c)))).
  { intros k m. apply Forall_forall. intros b Hb.
    assert (Hf : Forall (fun b => b = mkBar c c c c) (flat_frame n c))
      by (apply Forall_forall; intros b' Hb'; now apply repeat_spec in Hb').
    rewrite <- (firstn_skipn m (flat_frame n c)) in Hf.
    apply Forall_app in Hf. destruct Hf as [Hf _].
    rewrite <- (firstn_skipn k (firstn m (flat_frame n c))) in Hf.
    apply Forall_app in Hf. destruct Hf as [_ Hf].
    rewrite Forall_forall in Hf. now apply Hf. }
  exists (mean (map Close bars200)), (maximum (map High bars250)).
  split; [|split; [|split]].
  - cbn [SMA_200 calculate_indicators].
    apply (@iloc_last_of_nth_error _ (n - 1)%nat).
    + rewrite length_rolling, length_column, Hl. lia.
    + apply rolling_column_value; rewrite ?Hl; lia.
  - assert (Hb : c <= mean (map Close bars200) /\ mean (map Close bars200) <= c).
    { apply mean_bounds.
      - intros E. apply (f_equal (@length Q)) in E.
        unfold bars200 in E.
        rewrite length_map, length_bar_window in E by (rewrite ?Hl; lia).
        discriminate E.
      - apply Forall_map. eapply Forall_impl; [|apply Hall].
        intros b ->. split; apply Qle_refl. }
    now apply Qle_antisym.
  - cbn [High_52W calculate_indicators].
    apply (@iloc_last_of_nth_error _ (n - 1)%nat).
    + rewrite length_rolling, length_column, Hl. lia.
    + apply rolling_column_value; rewrite ?Hl; lia.
  - destruct (@maximum_attained (map High bars250)) as (x & Hx & ->).
    + intros E. apply (f_equal (@length Q)) in E.
      unfold bars250 in E.
      rewrite length_map, length_bar_window in E by (rewrite ?Hl; lia).
      discriminate E.
    + apply in_map_iff in Hx. destruct Hx as (b & <- & Hb).
      pose proof (Hall (n - 1 + 1 - 250)%nat (n - 1 + 1)%nat) as Hf.
      rewrite Forall_forall in Hf. rewrite (Hf b Hb). reflexivity.
Qed.

End FlatTicker.

(** X18.  A ticker whose at least 250 bars all hold one positive price
    gets a fixed column: the close with an undefined RSI, the Bearish
    label (the close is not strictly above its average), the at-highs
    message and the refusal; no position is sized and the provider is not
    asked. *)
Theorem flat_ticker_column
        (cfg : settings) (usd_jpy : float) (client : option (string -> reply))
        (download : string -> option frame)
        (ticker name : string) (n : nat) (c : Q) :
  download ticker = Some (flat_frame n c) ->
  (250 <= n)%nat ->
  0 < c ->
  analyse cfg usd_jpy client download ticker name
  = [Subheader name ticker; Metric (Fin c) NaN; Trend_label Bearish;
     At_highs; No_entry].
Proof.
  intros Hd Hn Hc.
  rewrite (analyse_long cfg usd_jpy client download ticker name Hd)
    by (rewrite length_flat_frame; exact Hn).
  assert (Hne : flat_frame n c <> []).
  { intros E. apply (f_equal (@length bar)) in E.
    rewrite length_flat_frame in E. simpl in E. lia. }
  rewrite (iloc_last_column_value Close (mkBar 0 0 0 0) Hne).
  rewrite last_flat_frame by lia. cbn [Close].
  rewrite flat_rsi_last by lia.
  destruct (flat_long_windows c Hn) as (s & h & -> & Es & -> & Eh).
  assert (Hbear : is_bull (Fin c) (Fin s) = false).
  { unfold is_bull. apply fgt_Fin_false. rewrite Es. apply Qle_refl. }
  assert (Hhigh : classify (Fin c) (Fin h) = AtHighs).
  { unfold classify. cbn [fmul].
    rewrite (proj2 (fge_Fin c (h * (99 # 100)))); [reflexivity|].
    rewrite Eh. lra. }
  unfold trend_of, position_block, opportunity_widget.
  now rewrite Hbear, Hhigh.
Qed.

Lemma flat_ticker_column_witness :
  analyse default_settings (Fin 150) None (fun _ => Some (flat_frame 250 100))
          "SPY" "S&P 500 ETF"
  = [Subheader "S&P 500 ETF" "SPY"; Metric (Fin 100) NaN; Trend_label Bearish;
     At_highs; No_entry].
Proof.
  apply (@flat_ticker_column default_settings (Fin 150) None
           (fun _ => Some (flat_frame 250 100))
           "SPY"%string "S&P 500 ETF"%string 250%nat 100 eq_refl).
  - apply Nat.leb_le. reflexivity.
  - reflexivity.
Defined.

(** ** RSI after fourteen moves in one direction *)

Section Saturation.

Local Open Scope nat_scope.

Lemma In_window w i (s : series) (x : float) :
  In x (window w i s) ->
  exists j, i + 1 - w <= j /\ j <= i /\ nth_error s j = Some x.
Proof.
  unfold window. intros H. apply In_nth_error in H. destruct H as [k Hk].
  rewrite nth_error_skipn, nth_error_firstn in Hk.
  destruct (Nat.ltb_spec (i + 1 - w + k) (i + 1)) as [L|L]; [|discriminate].
  exists (i + 1 - w + k). repeat split; [lia | lia | exact Hk].
Qed.

(** A 14-bar rolling mean over a finite column, with a property of the
    rows of its window carried to the observations. *)
Lemma rolling_mean_window (P : Q -> Prop) (s : series) i :
  i < length s -> 14 <= i + 1 ->
  Forall (fun x => is_finite x = true) s ->
  (forall j q, i + 1 - 14 <= j -> j <= i ->
               nth_error s j = Some (Fin q) -> P q) ->
  exists obs,
    nth_error (rolling 14 mean s) i = Some (Fin (mean obs))
    /\ Forall P obs /\ length obs = 14.
Proof.
  intros Hi Hw Hfin HP.
  exists (observations (window 14 i s)).
  split; [now apply rolling_full|]. split.
  - apply Forall_observations, Forall_forall. intros x Hx q ->.
    destruct (In_window _ _ _ _ Hx) as (j & Hj1 & Hj2 & Hj).
    now apply (HP j).
  - rewrite observations_all_finite by now apply Forall_window.
    rewrite length_window. lia.
Qed.

Lemma nth_error_delta (df : frame) j b b' :
  nth_error df j = Some b -> nth_error df (S j) = Some b' ->
  nth_error (delta df) (S j) = Some (Fin (Close b' - Close b)).
Proof.
  intros Hb Hb'. unfold delta, diff.
  assert (Hj : S j < length (column Close df)).
  { rewrite length_column. apply nth_error_Some. congruence. }
  pose proof (nth_error_shift_S _ Hj) as Hs.
  rewrite (nth_error_column Close _ _ Hb) in Hs.
  now rewrite (nth_error_zip_with fsub _ _ _
                 (nth_error_column Close _ _ Hb') Hs).
Qed.

End Saturation.

Lemma total_pos (xs : list Q) :
  xs <> [] -> Forall (fun q => 0 < q) xs -> 0 < total xs.
Proof.
  intros Hne Hall. destruct Hall as [|x xs Hx Hxs]; [congruence|].
  simpl. fold (total xs).
  assert (H : 0 <= total xs).
  { apply total_nonneg. eapply Forall_impl; [|exact Hxs].
    intros q. apply Qlt_le_weak. }
  lra.
Qed.

Lemma mean_pos (xs : list Q) :
  length xs = 14%nat -> Forall (fun q => 0 < q) xs -> 0 < mean xs.
Proof.
  intros Hlen Hall. unfold mean. rewrite Hlen.
  apply Qlt_shift_div_l; [reflexivity|].
  rewrite Qmult_0_l. apply total_pos; [|exact Hall].
  intros ->. discriminate Hlen.
Qed.

(** X20.  After fourteen closes in a row that are each above the close
    before, the RSI is 100; after fourteen in a row that are each below
    the close before, it is 0. *)
Theorem rsi_saturates (df : frame) (i : nat) :
  (14 <= i)%nat -> (i < length df)%nat ->
  ((forall j b b', (i - 14 <= j)%nat -> (j < i)%nat ->
       nth_error df j = Some b -> nth_error df (S j) = Some b' ->
       Close b < Close b') ->
   exists r, nth_error (RSI (calculate_indicators df)) i = Some (Fin r)
             /\ r == 100)
  /\ ((forall j b b', (i - 14 <= j)%nat -> (j < i)%nat ->
          nth_error df j = Some b -> nth_error df (S j) = Some b' ->
          Close b' < Close b) ->
      exists r, nth_error (RSI (calculate_indicators df)) i = Some (Fin r)
                /\ r == 0).
Proof.
  intros Hw Hi.
  assert (Hrows : forall (f : float -> float) (P : Q -> Prop),
             (forall j b b', (i - 14 <= j)%nat -> (j < i)%nat ->
                nth_error df j = Some b -> nth_error df (S j) = Some b' ->
                forall q, f (Fin (Close b' - Close b)) = Fin q -> P q) ->
             forall j q, (i + 1 - 14 <= j)%nat -> (j <= i)%nat ->
               nth_error (map f (delta df)) j = Some (Fin q) -> P q).
  { intros f P HP j q Hj1 Hj2 Hq.
    destruct j as [|j]; [lia|].
    destruct (nth_error df j) as [b|] eqn:Hb;
      [|apply nth_error_None in Hb; lia].
    destruct (nth_error df (S j)) as [b'|] eqn:Hb';
      [|apply nth_error_None in Hb'; lia].
    rewrite nth_error_map, (nth_error_delta _ _ Hb Hb') in Hq.
    injection Hq as Hq.
    apply (HP j b b'); try assumption; lia. }
  assert (Hgi : (i < length (where_ (fun d => fgt d (Fin 0)) (Fin 0) (delta df)))%nat)
    by now rewrite length_gain_input.
  assert (Hli : (i < length (map fneg (where_ (fun d => flt d (Fin 0)) (Fin 0)
                                             (delta df))))%nat)
    by now rewrite length_loss_input.
  split; intros Hmove.
  - destruct (@rolling_mean_window (fun q => 0 < q) _ i Hgi ltac:(lia)
                (fin_sat_finite (gains_nonneg df))) as (og & Hg & Pg & Lg).
    { apply Hrows. intros j b b' Hj1 Hj2 Hb Hb' q.
      pose proof (Hmove j b b' Hj1 Hj2 Hb Hb') as Hlt.
      assert (Hd : 0 < Close b' - Close b) by lra.
      rewrite (proj2 (fgt_Fin _ 0) Hd). now intros [= <-]. }
    destruct (@rolling_mean_window (fun q => q == 0) _ i Hli ltac:(lia)
                (fin_sat_finite (losses_nonneg df))) as (ol & Hl & Pl & Ll).
    { unfold where_. rewrite map_map.
      apply Hrows. intros j b b' Hj1 Hj2 Hb Hb' q.
      pose proof (Hmove j b b' Hj1 Hj2 Hb Hb') as Hlt.
      assert (Hd : 0 <= Close b' - Close b) by lra.
      cbn beta.
      change (flt (Fin (Close b' - Close b)) (Fin 0))
        with (fgt (Fin 0) (Fin (Close b' - Close b))).
      rewrite (proj2 (fgt_Fin_false 0 _) Hd). now intros [= <-]. }
    fold (gain df) in Hg. fold (loss df) in Hl.
    rewrite (nth_error_RSI _ _ Hg Hl).
    destruct (rsi_of_averages (gain_nonneg _ _ Hg) (loss_nonneg _ _ Hl))
      as [(Eg & _) | [(_ & _ & ->) | (Pl' & _)]].
    + pose proof (mean_pos Lg Pg) as Hp. rewrite Eg in Hp. discriminate Hp.
    + eexists. split; [reflexivity|]. reflexivity.
    + rewrite (mean_zero Pl) in Pl'. discriminate Pl'.
  - destruct (@rolling_mean_window (fun q => q == 0) _ i Hgi ltac:(lia)
                (fin_sat_finite (gains_nonneg df))) as (og & Hg & Pg & Lg).
    { apply Hrows. intros j b b' Hj1 Hj2 Hb Hb' q.
      pose proof (Hmove j b b' Hj1 Hj2 Hb Hb') as Hlt.
      assert (Hd : Close b' - Close b <= 0) by lra.
      rewrite (proj2 (fgt_Fin_false _ 0) Hd). now intros [= <-]. }
    destruct (@rolling_mean_window (fun q => 0 < q) _ i Hli ltac:(lia)
                (fin_sat_finite (losses_nonneg df))) as (ol & Hl & Pl & Ll).
    { unfold where_. rewrite map_map.
      apply Hrows. intros j b b' Hj1 Hj2 Hb Hb' q.
      pose proof (Hmove j b b' Hj1 Hj2 Hb Hb') as Hlt.
      assert (Hd : Close b' - Close b < 0) by lra.
      cbn beta.
      change (flt (Fin (Close b' - Close b)) (Fin 0))
        with (fgt (Fin 0) (Fin (Close b' - Close b))).
      rewrite (proj2 (fgt_Fin 0 _) Hd). intros [= <-]. lra. }
    fold (gain df) in Hg. fold (loss df) in Hl.
    rewrite (nth_error_RSI _ _ Hg Hl).
    destruct (rsi_of_averages (gain_nonneg _ _ Hg) (loss_nonneg _ _ Hl))
      as [(_ & El & _) | [(_ & El & _) | (Pl' & ->)]].
    + pose proof (mean_pos Ll Pl) as Hp. rewrite El in Hp. discriminate Hp.
    + pose proof (mean_pos Ll Pl) as Hp. rewrite El in Hp. discriminate Hp.
    + eexists. split; [reflexivity|].
      rewrite (mean_zero Pg). field.
      intros E. rewrite E in Pl'. discriminate Pl'.
Qed.

Lemma rsi_saturates_witness :
  let rising := map (fun k => let c := inject_Z (Z.of_nat (100 + k)) in
                              mkBar c c c c) (seq 0 15) in
  exists r, nth_error (RSI (calculate_indicators rising)) 14 = Some (Fin r)
            /\ r == 100.
Proof.
  intros rising.
  apply (proj1 (@rsi_saturates rising 14
                  (proj1 (Nat.leb_le 14 14) eq_refl)
                  (proj1 (Nat.ltb_lt 14 (length rising)) eq_refl))).
  intros j b b' _ Hj Hb Hb'.
  do 14 (destruct j as [|j];
         [injection Hb as <-; injection Hb' as <-; reflexivity|]).
  exfalso. apply Nat.ltb_lt in Hj. discriminate Hj.
Defined.
